(** * SKY-SCS audio player: transport, smart-view filter and insight pipeline

    A shallow embedding of the state logic of the [App] component
    (the React component of the player) and of the records of [types.ts].

    Conventions of the embedding.
    - A JavaScript [number] that holds a quantity (volume, time, duration)
      is an IEEE-754 double: [float].  A [number] that holds an index is an
      integer: [Z] (the source only ever produces [-1], [0], an index of a
      [map], or an index plus or minus one).
    - An optional field ([insight?], [mood?], [coverArt?]) and a
      [string | null] are [option]; [undefined] and [null] are [None].
    - [useState] cells are fields of a record, a [setX(prev => ...)] call is
      a function on that record.
    - Calls on the audio element and on the audio context
      ([play], [pause], [resume], [currentTime = 0]) act on the device, not
      on [PlayerState]; they are outside the modelled state. *)

From Stdlib Require Import ZArith Floats Ascii String Lia.
From stdpp Require Import base list.

#[local] Set Warnings "-inexact-float".
Open Scope string_scope.
Open Scope Z_scope.

(** ** Records of [types.ts] *)

Record AIInsight := mkAIInsight {
  mood : string;
  fact : string;
  vibe : string
}.

Record Track := mkTrack {
  id : string;
  file : string;              (* the [File] object, by its name *)
  title : string;
  artist : string;
  album : string;
  duration : float;
  url : string;
  coverArt : option string;
  insight : option AIInsight
}.

Inductive RepeatMode := RepeatNone | RepeatAll | RepeatOne.

Record PlayerState := mkPlayerState {
  isPlaying : bool;
  currentTrackIndex : Z;
  volume : float;
  currentTime : float;
  repeatMode : RepeatMode;
  isShuffle : bool
}.

Record Criteria := mkCriteria { criteria_mood : option string }.

Record SmartPlaylist := mkSmartPlaylist {
  sp_id : string;
  sp_name : string;
  criteria : Criteria
}.

(** The initial value of the [playerState] cell. *)
Definition initialPlayerState : PlayerState :=
  {| isPlaying := false;
     currentTrackIndex := -1;
     volume := 0.7%float;
     currentTime := 0%float;
     repeatMode := RepeatNone;
     isShuffle := false |}.

(** ** Playback transport *)

Module Transport.

Definition view_length (view : list Track) : Z := Z.of_nat (length view).

(** [playTrack]: the guard returns early; otherwise
    [setPlayerState(prev => ({...prev, currentTrackIndex: index, isPlaying: true}))]. *)
Definition playTrack (view : list Track) (index : Z) (ps : PlayerState) : PlayerState :=
  if (index <? 0) || (index >=? view_length view) then ps
  else {| isPlaying := true;
          currentTrackIndex := index;
          volume := volume ps;
          currentTime := currentTime ps;
          repeatMode := repeatMode ps;
          isShuffle := isShuffle ps |}.

(** [togglePlay]. *)
Definition togglePlay (view : list Track) (ps : PlayerState) : PlayerState :=
  if (currentTrackIndex ps =? -1) && (view_length view >? 0) then playTrack view 0 ps
  else {| isPlaying := negb (isPlaying ps);
          currentTrackIndex := currentTrackIndex ps;
          volume := volume ps;
          currentTime := currentTime ps;
          repeatMode := repeatMode ps;
          isShuffle := isShuffle ps |}.

(** [nextTrack]: under repeat-one only the audio element is touched. *)
Definition nextTrack (view : list Track) (ps : PlayerState) : PlayerState :=
  match repeatMode ps with
  | RepeatOne => ps
  | mode =>
      let nextIndex := currentTrackIndex ps + 1 in
      let nextIndex :=
        if nextIndex >=? view_length view
        then (match mode with RepeatAll => 0 | _ => currentTrackIndex ps end)
        else nextIndex in
      playTrack view nextIndex ps
  end.

(** [prevTrack]. *)
Definition prevTrack (view : list Track) (ps : PlayerState) : PlayerState :=
  let prevIndex := currentTrackIndex ps - 1 in
  let prevIndex :=
    if prevIndex <? 0
    then (match repeatMode ps with RepeatAll => view_length view - 1 | _ => 0 end)
    else prevIndex in
  playTrack view prevIndex ps.

(** [handleVolumeChange], after [parseFloat(e.target.value)] gave [vol]. *)
Definition handleVolumeChange (vol : float) (ps : PlayerState) : PlayerState :=
  {| isPlaying := isPlaying ps;
     currentTrackIndex := currentTrackIndex ps;
     volume := vol;
     currentTime := currentTime ps;
     repeatMode := repeatMode ps;
     isShuffle := isShuffle ps |}.

(** [handleSeek], after [parseFloat(e.target.value)] gave [time]. *)
Definition handleSeek (time : float) (ps : PlayerState) : PlayerState :=
  {| isPlaying := isPlaying ps;
     currentTrackIndex := currentTrackIndex ps;
     volume := volume ps;
     currentTime := time;
     repeatMode := repeatMode ps;
     isShuffle := isShuffle ps |}.

(** The edges of a view, and the indices that select a track of it. *)
Definition selects (view : list Track) (i : Z) : Prop := 0 <= i < view_length view.

Definition at_boundary (view : list Track) (i : Z) : Prop :=
  i = 0 \/ i = view_length view - 1.

(** The range of the volume slider ([min="0" max="1"]). *)
Definition in_unit_interval (v : float) : bool :=
  PrimFloat.leb 0 v && PrimFloat.leb v 1.

(** [{ ...prev, isPlaying: !prev.isPlaying }]. *)
Definition flip_isPlaying (ps : PlayerState) : PlayerState :=
  {| isPlaying := negb (isPlaying ps);
     currentTrackIndex := currentTrackIndex ps;
     volume := volume ps;
     currentTime := currentTime ps;
     repeatMode := repeatMode ps;
     isShuffle := isShuffle ps |}.

(** A view of [n] tracks, for the scenarios. *)
Definition sample_track (n : string) (i : option AIInsight) : Track :=
  {| id := n; file := n ++ ".mp3"; title := n; artist := "Local Artist";
     album := "Local Storage"; duration := 0%float; url := "blob:" ++ n;
     coverArt := None; insight := i |}.

Definition three_tracks : list Track :=
  [sample_track "a" None; sample_track "b" None; sample_track "c" None].

Definition at_last_of_three : PlayerState :=
  {| isPlaying := true; currentTrackIndex := 2; volume := 0.7%float;
     currentTime := 0%float; repeatMode := RepeatAll; isShuffle := false |}.

Definition at_first_of_three : PlayerState :=
  {| isPlaying := true; currentTrackIndex := 0; volume := 0.7%float;
     currentTime := 0%float; repeatMode := RepeatAll; isShuffle := false |}.

Definition at_middle_of_three : PlayerState :=
  {| isPlaying := false; currentTrackIndex := 1; volume := 0.7%float;
     currentTime := 0%float; repeatMode := RepeatNone; isShuffle := false |}.

End Transport.

(** ** Smart-view filter *)

Module SmartView.

(** [String.prototype.toLowerCase] on the ASCII letters. *)
Definition lower_ascii (c : ascii) : ascii :=
  let n := nat_of_ascii c in
  if (65 <=? n)%nat && (n <=? 90)%nat then ascii_of_nat (n + 32) else c.

Fixpoint toLowerCase (s : string) : string :=
  match s with
  | EmptyString => EmptyString
  | String c r => String (lower_ascii c) (toLowerCase r)
  end.

(** [===] between two values that are each a string or [undefined]. *)
Definition strict_eq (a b : option string) : bool :=
  match a, b with
  | Some x, Some y => String.eqb x y
  | None, None => true
  | _, _ => false
  end.

(** The predicate of the [filter]:
    [t.insight?.mood.toLowerCase() === playlist.criteria.mood?.toLowerCase()]. *)
Definition mood_matches (playlist : SmartPlaylist) (t : Track) : bool :=
  strict_eq (option_map (fun i => toLowerCase (mood i)) (insight t))
            (option_map toLowerCase (criteria_mood (criteria playlist))).

(** [!activeSmartPlaylistId]: [null] and the empty string are falsy. *)
Definition falsy (activeSmartPlaylistId : option string) : bool :=
  match activeSmartPlaylistId with
  | None => true
  | Some a => String.eqb a ""
  end.

(** [smartPlaylists.find(p => p.id === activeSmartPlaylistId)]. *)
Definition find_playlist (smartPlaylists : list SmartPlaylist)
    (activeSmartPlaylistId : option string) : option SmartPlaylist :=
  match activeSmartPlaylistId with
  | None => None
  | Some a => List.find (fun p => String.eqb (sp_id p) a) smartPlaylists
  end.

(** The memoised [displayedTracks]. *)
Definition displayedTracks (tracks : list Track) (smartPlaylists : list SmartPlaylist)
    (activeSmartPlaylistId : option string) : list Track :=
  if falsy activeSmartPlaylistId then tracks
  else match find_playlist smartPlaylists activeSmartPlaylistId with
       | None => tracks
       | Some playlist => List.filter (mood_matches playlist) tracks
       end.

(** [createSmartPlaylist(mood)]; [draw] is the string that
    [Math.random().toString(36).substr(2, 9)] gave. *)
Definition createSmartPlaylist (draw : string) (m : string) : SmartPlaylist :=
  {| sp_id := draw; sp_name := m ++ " Vibes"; criteria := {| criteria_mood := Some m |} |}.

(** The mood a track is filed under, compared without regard to case:
    the reading of "insight.mood equals the criterion mood" used in the
    statements below. *)
Definition has_mood (m : string) (t : Track) : bool :=
  match insight t with
  | Some i => String.eqb (toLowerCase (mood i)) (toLowerCase m)
  | None => false
  end.

(** The catalog and the playlists of the scenarios. *)
Definition chill_insight : AIInsight :=
  {| mood := "Chill"; fact := "Recorded in one take."; vibe := "#22d3ee" |}.

Definition track_A : Track := Transport.sample_track "A" (Some chill_insight).
Definition track_B : Track := Transport.sample_track "B" None.
Definition track_C : Track := Transport.sample_track "C" (Some chill_insight).

Definition chill_playlist : SmartPlaylist := createSmartPlaylist "k3x9q0w2z" "Chill".

(** A playlist as the type [SmartPlaylist] admits it, with no mood in its
    criteria. *)
Definition moodless_playlist : SmartPlaylist :=
  {| sp_id := "p7"; sp_name := "Everything"; criteria := {| criteria_mood := None |} |}.

End SmartView.

(** ** Enrichment pipeline

    The pipeline is the effect with dependencies
    [[tracks, isInsightLoading]] around [analyzeUnprocessed]. That function
    is synchronous up to its [await] and again from the [await] on; each of
    the two pieces, like the upload handler, is modelled as the list of the
    calls it makes, taken from the values it closed over. An effect run reads
    the two cells as all earlier code left them: React commits the pending
    updates in a render before it runs the effect of that render. *)

Module Enrichment.

(** How the promise of [getTrackInsight] settles: fulfilled with an insight
    or with [null], or rejected. *)
Inductive Settlement :=
| Fulfilled (insight : option AIInsight)
| Rejected.

(** The calls the pipeline makes, in the granularity of the source:
    [setIsInsightLoading(b)];
    [getTrackInsight(unprocessed.title, unprocessed.artist)], with the
    track whose fields are passed; the [setTracks] of the continuation, with
    [unprocessed.id] and the insight received; the [setTracks] of the upload
    handler. *)
Inductive Action :=
| SetIsInsightLoading (b : bool)
| GetTrackInsight (unprocessed : Track)
| SetTracksInsight (unprocessed_id : string) (insight : AIInsight)
| SetTracksAppend (newTracks : list Track).

(** The cells [tracks] and [isInsightLoading], the promises of
    [getTrackInsight] that have not settled (each with the [unprocessed]
    track its continuation closes over), whether a dependency of the effect
    changed since the effect last ran, and the calls made so far. *)
Record App := mkApp {
  tracks : list Track;
  isInsightLoading : bool;
  pending : list Track;
  effectDue : bool;
  history : list Action
}.

(** On mount both cells hold their initial values and the effect is due. *)
Definition init : App :=
  {| tracks := []; isInsightLoading := false; pending := [];
     effectDue := true; history := [] |}.

(** [{ ...t, insight }]. *)
Definition with_insight (t : Track) (i : AIInsight) : Track :=
  {| id := id t; file := file t; title := title t; artist := artist t;
     album := album t; duration := duration t; url := url t;
     coverArt := coverArt t; insight := Some i |}.

(** [prev.map(t => t.id === unprocessed.id ? { ...t, insight } : t)]. *)
Definition write_insight (unprocessed_id : string) (i : AIInsight)
    (prev : list Track) : list Track :=
  List.map (fun t => if String.eqb (id t) unprocessed_id then with_insight t i else t) prev.

(** [!t.insight]. *)
Definition unprocessed (t : Track) : bool :=
  match insight t with Some _ => false | None => true end.

(** One call takes effect.  A setter of a cell whose value changes, and every
    [setTracks] (it always builds a new array), makes the effect due. *)
Definition exec (s : App) (a : Action) : App :=
  match a with
  | SetIsInsightLoading b =>
      {| tracks := tracks s; isInsightLoading := b; pending := pending s;
         effectDue := effectDue s || negb (Bool.eqb b (isInsightLoading s));
         history := history s ++ [a] |}
  | GetTrackInsight u =>
      {| tracks := tracks s; isInsightLoading := isInsightLoading s;
         pending := pending s ++ [u];
         effectDue := effectDue s; history := history s ++ [a] |}
  | SetTracksInsight uid i =>
      {| tracks := write_insight uid i (tracks s);
         isInsightLoading := isInsightLoading s; pending := pending s;
         effectDue := true; history := history s ++ [a] |}
  | SetTracksAppend newTracks =>
      {| tracks := tracks s ++ newTracks;
         isInsightLoading := isInsightLoading s; pending := pending s;
         effectDue := true; history := history s ++ [a] |}
  end.

(** [analyzeUnprocessed] up to its [await], on the values of [tracks] and
    [isInsightLoading] the effect closed over. *)
Definition analyzeUnprocessed (tracks : list Track) (isInsightLoading : bool) : list Action :=
  match List.find unprocessed tracks with
  | Some u =>
      if negb isInsightLoading
      then [SetIsInsightLoading true; GetTrackInsight u]
      else []
  | None => []
  end.

(** [analyzeUnprocessed] from its [await] on.  A rejection leaves the
    function at the [await]: nothing after it runs. *)
Definition analyzeUnprocessed_resume (u : Track) (r : Settlement) : list Action :=
  match r with
  | Fulfilled (Some i) => [SetTracksInsight (id u) i; SetIsInsightLoading false]
  | Fulfilled None => [SetIsInsightLoading false]
  | Rejected => []
  end.

(** A file the user picked, with the strings the browser supplies for it:
    the [Math.random] draw of the id and the object URL. *)
Record PickedFile := mkPickedFile {
  draw : string;
  name : string;
  objectURL : string
}.

(** [name.replace(/\.[^/.]+$/, "")] on the reversed characters: the match,
    if any, starts at the last dot, which must be followed by at least one
    character and by no slash. *)
Fixpoint strip_extension_rev (r : list ascii) (seen : bool) : option (list ascii) :=
  match r with
  | [] => None
  | c :: r' =>
      if Ascii.eqb c "."%char then (if seen then Some r' else None)
      else if Ascii.eqb c "/"%char then None
      else strip_extension_rev r' true
  end.

Definition strip_extension (name : string) : string :=
  match strip_extension_rev (rev (list_ascii_of_string name)) false with
  | Some r' => string_of_list_ascii (rev r')
  | None => name
  end.

Definition track_of_file (f : PickedFile) : Track :=
  {| id := draw f;
     file := name f;
     title := strip_extension (name f);
     artist := "Local Artist";
     album := "Local Storage";
     duration := 0%float;
     url := objectURL f;
     coverArt := Some ("https://picsum.photos/seed/" ++ name f ++ "/400/400");
     insight := None |}.

(** [handleFileUpload], as far as it touches the catalog. *)
Definition handleFileUpload (files : list PickedFile) : list Action :=
  [SetTracksAppend (List.map track_of_file files)].

(** What can happen next: the effect with dependencies
    [[tracks, isInsightLoading]] runs; the [k]-th unsettled promise settles
    and its continuation runs; the user picks files. *)
Inductive Event :=
| EffectRun
| InsightSettled (k : nat) (r : Settlement)
| FilesUploaded (files : list PickedFile).

(** What the runtime does before the code of the event runs: the effect is
    no longer due; the promise is no longer unsettled. *)
Definition begin (s : App) (ev : Event) : App :=
  match ev with
  | EffectRun =>
      {| tracks := tracks s; isInsightLoading := isInsightLoading s;
         pending := pending s; effectDue := false; history := history s |}
  | InsightSettled k _ =>
      {| tracks := tracks s; isInsightLoading := isInsightLoading s;
         pending := delete k (pending s); effectDue := effectDue s;
         history := history s |}
  | FilesUploaded _ => s
  end.

(** The calls the code of the event makes, in order.  The effect runs only
    when a dependency changed; a promise that is not there cannot settle. *)
Definition segment (s : App) (ev : Event) : list Action :=
  match ev with
  | EffectRun =>
      if effectDue s then analyzeUnprocessed (tracks s) (isInsightLoading s) else []
  | InsightSettled k r =>
      match pending s !! k with
      | Some u => analyzeUnprocessed_resume u r
      | None => []
      end
  | FilesUploaded files => handleFileUpload files
  end.

(** The state after the first [n] calls of the event's code. *)
Definition micro (s : App) (ev : Event) (n : nat) : App :=
  foldl exec (begin s ev) (take n (segment s ev)).

Definition step (s : App) (ev : Event) : App :=
  foldl exec (begin s ev) (segment s ev).

Definition run (s : App) (evs : list Event) : App := foldl step s evs.

(** The tracks [getTrackInsight] was called for, in call order. *)
Definition requests (s : App) : list Track :=
  omap (fun a => match a with GetTrackInsight u => Some u | _ => None end) (history s).

(** The ids [setTracks] wrote an insight for, in call order. *)
Definition insight_writes (s : App) : list string :=
  omap (fun a => match a with SetTracksInsight uid _ => Some uid | _ => None end) (history s).

(** The ids drawn for the files of an event, and of a run. *)
Definition drawn_ids (ev : Event) : list string :=
  match ev with
  | FilesUploaded files => List.map draw files
  | _ => []
  end.

Definition uploaded_ids (evs : list Event) : list string :=
  concat (List.map drawn_ids evs).

Definition is_settlement (ev : Event) : bool :=
  match ev with InsightSettled _ _ => true | _ => false end.

(** At most one promise is unsettled, and while one is the flag is set. *)
Definition single_flight (s : App) : Prop :=
  (length (pending s) <= 1)%nat /\ (pending s <> [] -> isInsightLoading s = true).

(** The track an unsettled promise was requested for is still what the scan
    of the catalog finds. *)
Definition pending_is_first_unprocessed (s : App) : Prop :=
  forall u, In u (pending s) -> List.find unprocessed (tracks s) = Some u.

(** Every id an insight was written for belongs to a track of the catalog
    that has an insight. *)
Definition written_have_insight (s : App) : Prop :=
  forall x, In x (insight_writes s) ->
    exists t, In t (tracks s) /\ id t = x /\ insight t <> None.

(** The files and insights of the scenarios. *)
Definition file_X : PickedFile := {| draw := "x4k2m9q1z"; name := "X.mp3"; objectURL := "blob:1" |}.
Definition file_Y : PickedFile := {| draw := "7hd02lsp3"; name := "Y.mp3"; objectURL := "blob:2" |}.
Definition track_X : Track := track_of_file file_X.
Definition track_Y : Track := track_of_file file_Y.

Definition happy_insight : AIInsight :=
  {| mood := "Happy"; fact := "Written on a train."; vibe := "#facc15" |}.

Definition dark_insight : AIInsight :=
  {| mood := "Dark"; fact := "Mixed at night."; vibe := "#0f172a" |}.

(** [X; Y] are picked and the effect runs: the request for [X] is out. *)
Definition X_requested : list Event :=
  [FilesUploaded [file_X; file_Y]; EffectRun].

(** The request for [X] is fulfilled with an insight. *)
Definition X_enriched : list Event :=
  (X_requested ++ [InsightSettled 0 (Fulfilled (Some happy_insight))])%list.

(** The effect runs again and the request it makes is fulfilled too. *)
Definition then_Y_enriched : list Event :=
  [EffectRun; InsightSettled 0 (Fulfilled (Some dark_insight))].


(** A later file for which [Math.random] gave the id of [X] once more. *)
Definition file_Z_same_draw : PickedFile :=
  {| draw := draw file_X; name := "Z.mp3"; objectURL := "blob:3" |}.

Definition only_X_enriched : list Event :=
  [FilesUploaded [file_X]; EffectRun; InsightSettled 0 (Fulfilled (Some happy_insight))].

Definition colliding_upload : list Event :=
  (only_X_enriched ++ [FilesUploaded [file_Z_same_draw]; EffectRun;
                       InsightSettled 0 (Fulfilled (Some dark_insight))])%list.

End Enrichment.

(** ** The rest of the component: derived values and the other handlers *)

Module Controls.
Import Transport.

(** [displayedTracks[playerState.currentTrackIndex] || null]: reading an
    array at [-1] or past its end gives [undefined]. *)
Definition currentTrack (view : list Track) (ps : PlayerState) : option Track :=
  if currentTrackIndex ps <? 0 then None
  else view !! Z.to_nat (currentTrackIndex ps).

(** The shuffle button: [setPlayerState(p => ({ ...p, isShuffle: !p.isShuffle }))]. *)
Definition toggleShuffle (ps : PlayerState) : PlayerState :=
  {| isPlaying := isPlaying ps;
     currentTrackIndex := currentTrackIndex ps;
     volume := volume ps;
     currentTime := currentTime ps;
     repeatMode := repeatMode ps;
     isShuffle := negb (isShuffle ps) |}.

(** The repeat button. [modes] is its local array. *)
Definition modes : list RepeatMode := [RepeatNone; RepeatAll; RepeatOne].

Definition RepeatMode_eqb (a b : RepeatMode) : bool :=
  match a, b with
  | RepeatNone, RepeatNone | RepeatAll, RepeatAll | RepeatOne, RepeatOne => true
  | _, _ => false
  end.

(** [Array.prototype.indexOf], counting from [from]; [-1] when absent. *)
Fixpoint indexOf_from (m : RepeatMode) (l : list RepeatMode) (from : Z) : Z :=
  match l with
  | [] => -1
  | x :: l' => if RepeatMode_eqb x m then from else indexOf_from m l' (from + 1)
  end.

Definition indexOf (m : RepeatMode) (l : list RepeatMode) : Z := indexOf_from m l 0.

(** [modes[(modes.indexOf(p.repeatMode) + 1) % modes.length]]; the value
    read is kept as the array read gives it, [None] for [undefined]. *)
Definition next_mode (m : RepeatMode) : option RepeatMode :=
  modes !! Z.to_nat (Z.rem (indexOf m modes + 1) (Z.of_nat (length modes))).

(** [setPlayerState(p => ({ ...p, repeatMode: ... }))]. The read never
    leaves the array (see the properties), so the fallback is not taken. *)
Definition cycleRepeatMode (ps : PlayerState) : PlayerState :=
  {| isPlaying := isPlaying ps;
     currentTrackIndex := currentTrackIndex ps;
     volume := volume ps;
     currentTime := currentTime ps;
     repeatMode := match next_mode (repeatMode ps) with
                   | Some m => m
                   | None => repeatMode ps
                   end;
     isShuffle := isShuffle ps |}.

(** [handleFileUpload], as far as it touches the player: [playTrack(0)] is
    the function of the render in which the files were picked, so [view] is
    the view before the new tracks are appended. *)
Definition handleFileUpload_player (view : list Track)
    (files : list Enrichment.PickedFile) (ps : PlayerState) : PlayerState :=
  if (currentTrackIndex ps =? -1)
     && (Z.of_nat (length (List.map Enrichment.track_of_file files)) >? 0)
  then playTrack view 0 ps
  else ps.

(** [{ ...t, duration: audio.duration }]. *)
Definition with_duration (t : Track) (d : float) : Track :=
  {| id := id t; file := file t; title := title t; artist := artist t;
     album := album t; duration := d; url := url t;
     coverArt := coverArt t; insight := insight t |}.

(** [t.id === currentTrack?.id]: no id equals [undefined]. *)
Definition is_current (current : option Track) (t : Track) : bool :=
  match current with
  | Some c => String.eqb (id t) (id c)
  | None => false
  end.

(** [onLoadedMetadata]:
    [setTracks(prev => prev.map(t => t.id === currentTrack?.id ? { ...t, duration: audio.duration } : t))]. *)
Definition onLoadedMetadata (current : option Track) (d : float)
    (prev : list Track) : list Track :=
  List.map (fun t => if is_current current t then with_duration t d else t) prev.

(** [createSmartPlaylist] on the registry:
    [setSmartPlaylists(prev => [...prev, newPlaylist])]. *)
Definition addSmartPlaylist (draw : string) (m : string)
    (prev : list SmartPlaylist) : list SmartPlaylist :=
  prev ++ [SmartView.createSmartPlaylist draw m].

(** A registry as the component builds it: from the empty one, by
    [createSmartPlaylist] with a draw of the id and a mood each time. *)
Definition registry_of (made : list (string * string)) : list SmartPlaylist :=
  foldl (fun prev dm => addSmartPlaylist (fst dm) (snd dm) prev) [] made.

(** The tracks of a catalog that the pipeline has still to look at. *)
Definition unprocessed_count (l : list Track) : nat :=
  length (List.filter Enrichment.unprocessed l).

(** A player state that points into [three_tracks], for the examples. *)
Definition playing_first : PlayerState :=
  {| isPlaying := true; currentTrackIndex := 0; volume := 0.7%float;
     currentTime := 0%float; repeatMode := RepeatNone; isShuffle := false |}.

End Controls.

(** ** The catalog with all its writers

    [tracks] has three writers: the upload handler and the continuation of
    [analyzeUnprocessed], which are events of the pipeline above, and the
    [setTracks] of [onLoadedMetadata], which stores a duration and, changing
    [tracks], makes the effect due. A session interleaves all three. The
    metadata update is no call of the pipeline and is not entered in
    [history]. *)

Module Session.
Import Enrichment Controls.

Inductive Happening :=
| Pipeline (ev : Event)
| MetadataLoaded (current : option Track) (d : float).

(** The [setTracks] of [onLoadedMetadata], for the [currentTrack] of the
    render and the duration the audio element reports. *)
Definition load_metadata (current : option Track) (d : float) (s : App) : App :=
  {| tracks := onLoadedMetadata current d (tracks s);
     isInsightLoading := isInsightLoading s;
     pending := pending s;
     effectDue := true;
     history := history s |}.

Definition advance (s : App) (h : Happening) : App :=
  match h with
  | Pipeline ev => step s ev
  | MetadataLoaded current d => load_metadata current d s
  end.

Definition play (s : App) (hs : list Happening) : App := foldl advance s hs.

(** The ids drawn for the files of a session. *)
Definition drawn (h : Happening) : list string :=
  match h with
  | Pipeline ev => drawn_ids ev
  | MetadataLoaded _ _ => []
  end.

Definition session_ids (hs : list Happening) : list string :=
  concat (List.map drawn hs).

(** The track an unsettled promise was requested for is, by its id, still
    the one the scan of the catalog finds. *)
Definition pending_by_id (s : App) : Prop :=
  forall u, In u (pending s) ->
    exists t, List.find unprocessed (tracks s) = Some t /\ id t = id u.

Record SessionInv (s : App) : Prop := mkSessionInv {
  sinv_single_flight : single_flight s;
  sinv_pending : pending_by_id s;
  sinv_written : written_have_insight s;
  sinv_writes_once : NoDup (insight_writes s)
}.

(** The entry at index [n] is the track [t], but for its duration. *)
Definition entry_is (s : App) (n : nat) (t : Track) : Prop :=
  exists d, tracks s !! n = Some (with_duration t d).

(** The sessions of the scenarios. [X] is enriched and its duration
    arrives; then [Y] is enriched. *)
Definition X_enriched_and_measured : list Happening :=
  (List.map Pipeline X_enriched
   ++ [MetadataLoaded (Some track_X) 215.5%float])%list.

Definition Y_enriched_later : list Happening :=
  List.map Pipeline then_Y_enriched.

(** The request for [X] is out when its duration arrives. *)
Definition X_requested_and_measured : list Happening :=
  (List.map Pipeline X_requested
   ++ [MetadataLoaded (Some track_X) 215.5%float])%list.

End Session.

(** * Properties *)

(** ** Playback transport *)

Section TransportFacts.
Import Transport.

Ltac zcases :=
  repeat match goal with
    | |- context [?a <? ?b] => destruct (Z.ltb_spec a b)
    | |- context [?a >=? ?b] => rewrite (Z.geb_leb a b); destruct (Z.leb_spec b a)
    | |- context [?a >? ?b] => rewrite (Z.gtb_ltb a b); destruct (Z.ltb_spec b a)
    | |- context [?a =? ?b] => destruct (Z.eqb_spec a b)
    end; simpl.

Lemma view_length_pos (view : list Track) : view <> [] -> 0 < view_length view.
Proof. destruct view; [congruence|]. unfold view_length. simpl. lia. Qed.

Lemma playTrack_skip (view : list Track) (i : Z) (ps : PlayerState) :
  i < 0 \/ view_length view <= i -> playTrack view i ps = ps.
Proof. intros Hi. unfold playTrack. zcases; try reflexivity; lia. Qed.

Lemma playTrack_index (view : list Track) (i : Z) (ps : PlayerState) :
  selects view i -> currentTrackIndex (playTrack view i ps) = i.
Proof. intros [H0 H1]. unfold playTrack. zcases; try reflexivity; lia. Qed.

(** C4. Selecting an index outside [0, view.length), such as [-1], leaves
    the whole player state as it was. *)
Theorem playTrack_out_of_range (view : list Track) (i : Z) (ps : PlayerState) :
  ~ selects view i -> playTrack view i ps = ps.
Proof.
  intros Hout. apply playTrack_skip. unfold selects in Hout. lia.
Qed.

Lemma playTrack_out_of_range_minus_one :
  ~ selects three_tracks (-1)
  /\ playTrack three_tracks (-1) initialPlayerState = initialPlayerState.
Proof.
  assert (H : ~ selects three_tracks (-1)) by (unfold selects; lia).
  split; [exact H | exact (playTrack_out_of_range three_tracks (-1) initialPlayerState H)].
Defined.

(** C10. Selecting an index inside [0, view.length) sets
    [currentTrackIndex] to it and [isPlaying] to true, and keeps [volume],
    [currentTime], [repeatMode] and [isShuffle]. *)
Theorem playTrack_in_range_frame (view : list Track) (i : Z) (ps : PlayerState) :
  selects view i ->
  currentTrackIndex (playTrack view i ps) = i
  /\ isPlaying (playTrack view i ps) = true
  /\ volume (playTrack view i ps) = volume ps
  /\ currentTime (playTrack view i ps) = currentTime ps
  /\ repeatMode (playTrack view i ps) = repeatMode ps
  /\ isShuffle (playTrack view i ps) = isShuffle ps.
Proof.
  intros [H0 H1]. unfold playTrack. zcases; try lia. repeat split.
Qed.

Lemma playTrack_in_range_frame_second :
  selects three_tracks 1
  /\ currentTrackIndex (playTrack three_tracks 1 initialPlayerState) = 1
  /\ isPlaying (playTrack three_tracks 1 initialPlayerState) = true.
Proof.
  assert (H : selects three_tracks 1) by (unfold selects, view_length; simpl; lia).
  destruct (playTrack_in_range_frame three_tracks 1 initialPlayerState H) as (Hi & Hp & _).
  split; [exact H | split; [exact Hi | exact Hp]].
Defined.

(** C6. Under repeat-all, on a view that is not empty, [nextTrack] from the
    last index goes to index 0 and [prevTrack] from index 0 goes to the last
    index. *)
Theorem repeat_all_wraps (view : list Track) (ps : PlayerState) :
  view <> [] ->
  repeatMode ps = RepeatAll ->
  (currentTrackIndex ps = view_length view - 1 ->
   currentTrackIndex (nextTrack view ps) = 0)
  /\ (currentTrackIndex ps = 0 ->
      currentTrackIndex (prevTrack view ps) = view_length view - 1).
Proof.
  intros Hne Hall. pose proof (view_length_pos view Hne) as Hpos. split; intros Hi.
  - unfold nextTrack. rewrite Hall, Hi. cbv zeta.
    replace (view_length view - 1 + 1 >=? view_length view) with true
      by (symmetry; rewrite Z.geb_leb; apply Z.leb_le; lia).
    apply playTrack_index. unfold selects. lia.
  - unfold prevTrack. rewrite Hall, Hi. cbv zeta. simpl (0 - 1 <? 0).
    cbv iota. apply playTrack_index. unfold selects. lia.
Qed.

Lemma repeat_all_wraps_three_tracks :
  three_tracks <> []
  /\ currentTrackIndex (nextTrack three_tracks at_last_of_three) = 0
  /\ currentTrackIndex (prevTrack three_tracks at_first_of_three) = 2.
Proof.
  assert (Hne : three_tracks <> []) by discriminate.
  split; [exact Hne|]. split.
  - exact (proj1 (repeat_all_wraps three_tracks at_last_of_three Hne eq_refl) eq_refl).
  - exact (proj2 (repeat_all_wraps three_tracks at_first_of_three Hne eq_refl) eq_refl).
Defined.

(** C7. Under repeat-none, from a selected index that is not at an edge of
    the view, [nextTrack] followed by [prevTrack] comes back to the index it
    started from. *)
Theorem next_then_prev_returns (view : list Track) (ps : PlayerState) :
  repeatMode ps = RepeatNone ->
  selects view (currentTrackIndex ps) ->
  ~ at_boundary view (currentTrackIndex ps) ->
  currentTrackIndex (prevTrack view (nextTrack view ps)) = currentTrackIndex ps.
Proof.
  intros Hnone [H0 H1] Hedge. unfold at_boundary in Hedge.
  assert (Hnext : currentTrackIndex (nextTrack view ps) = currentTrackIndex ps + 1).
  { unfold nextTrack. rewrite Hnone. cbv zeta.
    replace (currentTrackIndex ps + 1 >=? view_length view) with false
      by (symmetry; rewrite Z.geb_leb; apply Z.leb_gt; lia).
    apply playTrack_index. unfold selects. lia. }
  unfold prevTrack. rewrite Hnext. cbv zeta.
  replace (currentTrackIndex ps + 1 - 1 <? 0) with false
    by (symmetry; apply Z.ltb_ge; lia).
  rewrite playTrack_index by (unfold selects; lia). lia.
Qed.

Lemma next_then_prev_returns_middle :
  currentTrackIndex (prevTrack three_tracks (nextTrack three_tracks at_middle_of_three)) = 1.
Proof.
  apply (next_then_prev_returns three_tracks at_middle_of_three).
  - reflexivity.
  - unfold selects, view_length. simpl. lia.
  - unfold at_boundary, view_length. simpl. lia.
Defined.

(** The exceptions of C7 are real: from the last index of a view of three
    the pair ends one index lower, and from "no track selected" it ends at
    index 0. *)
Lemma next_then_prev_at_last_edge :
  currentTrackIndex
    (prevTrack three_tracks
       (nextTrack three_tracks
          {| isPlaying := true; currentTrackIndex := 2; volume := 0.7%float;
             currentTime := 0%float; repeatMode := RepeatNone; isShuffle := false |})) = 1.
Proof. reflexivity. Qed.

Lemma next_then_prev_from_unselected :
  currentTrackIndex (prevTrack three_tracks (nextTrack three_tracks initialPlayerState)) = 0.
Proof. reflexivity. Qed.

(** C8, as the code has it. On an empty view (an empty catalog gives one)
    [playTrack], [nextTrack] and [prevTrack] leave the player state as it
    was; [togglePlay] flips [isPlaying] and keeps every other field. Each of
    the four returns a state: none has a failing path. *)
Theorem empty_view_transport (ps : PlayerState) (i : Z)
    (smartPlaylists : list SmartPlaylist) (activeSmartPlaylistId : option string) :
  SmartView.displayedTracks [] smartPlaylists activeSmartPlaylistId = []
  /\ playTrack [] i ps = ps
  /\ nextTrack [] ps = ps
  /\ prevTrack [] ps = ps
  /\ togglePlay [] ps = flip_isPlaying ps.
Proof.
  assert (Hplay : forall j, playTrack [] j ps = ps).
  { intros j. apply playTrack_skip. unfold view_length. simpl. lia. }
  repeat split.
  - unfold SmartView.displayedTracks.
    destruct (SmartView.falsy _); [reflexivity|].
    destruct (SmartView.find_playlist _ _); reflexivity.
  - apply Hplay.
  - unfold nextTrack. destruct (repeatMode ps); try reflexivity; apply Hplay.
  - unfold prevTrack. apply Hplay.
  - unfold togglePlay, view_length. simpl.
    rewrite Bool.andb_false_r. reflexivity.
Qed.

(** C8 fails as stated: with nothing loaded, [togglePlay] turns
    [isPlaying] on. *)
Lemma togglePlay_empty_view_changes_state :
  togglePlay [] initialPlayerState <> initialPlayerState
  /\ isPlaying (togglePlay [] initialPlayerState) = true.
Proof. split; [discriminate | reflexivity]. Qed.

(** C5, as the code has it. [handleVolumeChange] stores the value it is
    given and keeps every other field; for a value of the slider's range
    [0, 1] the stored volume therefore lies in [0, 1]. *)
Theorem handleVolumeChange_stores (v : float) (ps : PlayerState) :
  in_unit_interval v = true ->
  volume (handleVolumeChange v ps) = v
  /\ in_unit_interval (volume (handleVolumeChange v ps)) = true
  /\ isPlaying (handleVolumeChange v ps) = isPlaying ps
  /\ currentTrackIndex (handleVolumeChange v ps) = currentTrackIndex ps
  /\ currentTime (handleVolumeChange v ps) = currentTime ps
  /\ repeatMode (handleVolumeChange v ps) = repeatMode ps
  /\ isShuffle (handleVolumeChange v ps) = isShuffle ps.
Proof. intros Hv. simpl. repeat split. exact Hv. Qed.

Lemma handleVolumeChange_stores_half :
  volume (handleVolumeChange 0.5%float initialPlayerState) = 0.5%float
  /\ in_unit_interval (volume (handleVolumeChange 0.5%float initialPlayerState)) = true.
Proof.
  destruct (handleVolumeChange_stores 0.5%float initialPlayerState eq_refl) as (H1 & H2 & _).
  split; [exact H1 | exact H2].
Defined.

(** C5 fails as stated: 1.4 is stored as a volume above 1 and -0.2 as a
    volume below 0. *)
Lemma handleVolumeChange_does_not_clamp :
  PrimFloat.ltb 1 (volume (handleVolumeChange 1.4%float initialPlayerState)) = true
  /\ PrimFloat.ltb (volume (handleVolumeChange (-0.2)%float initialPlayerState)) 0 = true
  /\ in_unit_interval (volume (handleVolumeChange 1.4%float initialPlayerState)) = false
  /\ in_unit_interval (volume (handleVolumeChange (-0.2)%float initialPlayerState)) = false.
Proof. repeat split. Qed.

End TransportFacts.

(** ** Smart-view filter *)

Section SmartViewFacts.
Import SmartView.

Lemma filter_is_sublist {A : Type} (f : A -> bool) (l : list A) :
  sublist (List.filter f l) l.
Proof.
  induction l as [|a l IH]; simpl.
  - constructor.
  - destruct (f a); [apply sublist_skip | apply sublist_cons]; exact IH.
Qed.

Lemma mood_matches_has_mood (playlist : SmartPlaylist) (m : string) (t : Track) :
  criteria_mood (criteria playlist) = Some m ->
  mood_matches playlist t = has_mood m t.
Proof.
  intros Hm. unfold mood_matches, has_mood. rewrite Hm.
  destruct (insight t); reflexivity.
Qed.

Lemma has_mood_insight (m : string) (t : Track) :
  has_mood m t = true ->
  exists i, insight t = Some i /\ toLowerCase (mood i) = toLowerCase m.
Proof.
  unfold has_mood. destruct (insight t) as [i|]; [|discriminate].
  intros H. exists i. split; [reflexivity|]. apply String.eqb_eq. exact H.
Qed.

(** C3, as the code has it. With an active id that is null or empty, or
    that no playlist carries, the view is the catalog itself. Otherwise,
    for the first playlist that carries the id, if its criteria hold a mood
    the view is the catalog filtered, in catalog order, to the tracks whose
    insight mood equals that mood up to letter case; no track without
    insight is in it. *)
Theorem displayedTracks_spec (tracks : list Track) (smartPlaylists : list SmartPlaylist)
    (activeSmartPlaylistId : option string) :
  (falsy activeSmartPlaylistId = true
   \/ find_playlist smartPlaylists activeSmartPlaylistId = None ->
   displayedTracks tracks smartPlaylists activeSmartPlaylistId = tracks)
  /\ (forall playlist m,
        falsy activeSmartPlaylistId = false ->
        find_playlist smartPlaylists activeSmartPlaylistId = Some playlist ->
        criteria_mood (criteria playlist) = Some m ->
        displayedTracks tracks smartPlaylists activeSmartPlaylistId
          = List.filter (has_mood m) tracks
        /\ sublist (displayedTracks tracks smartPlaylists activeSmartPlaylistId) tracks
        /\ (forall t, In t (displayedTracks tracks smartPlaylists activeSmartPlaylistId) ->
              In t tracks
              /\ exists i, insight t = Some i /\ toLowerCase (mood i) = toLowerCase m)
        /\ (forall t, In t tracks -> insight t = None ->
              ~ In t (displayedTracks tracks smartPlaylists activeSmartPlaylistId))).
Proof.
  split.
  - intros [Hf | Hnone]; unfold displayedTracks.
    + rewrite Hf. reflexivity.
    + rewrite Hnone. destruct (falsy _); reflexivity.
  - intros playlist m Hf Hfind Hm.
    assert (Heq : displayedTracks tracks smartPlaylists activeSmartPlaylistId
                  = List.filter (has_mood m) tracks).
    { unfold displayedTracks. rewrite Hf, Hfind.
      apply List.filter_ext. intros t. apply mood_matches_has_mood. exact Hm. }
    rewrite Heq. split; [reflexivity|]. split; [apply filter_is_sublist|]. split.
    + intros t Hin. apply List.filter_In in Hin as [Hin Hmood].
      split; [exact Hin | apply has_mood_insight; exact Hmood].
    + intros t _ Hnone Hin. apply List.filter_In in Hin as [_ Hmood].
      unfold has_mood in Hmood. rewrite Hnone in Hmood. discriminate.
Qed.

(** The scenario of C3: [A (Chill); B (no insight); C (Chill)] under the
    playlist "Chill" shows [A; C]. *)
Lemma displayedTracks_spec_chill :
  displayedTracks [track_A; track_B; track_C] [chill_playlist] (Some (sp_id chill_playlist))
  = [track_A; track_C].
Proof.
  destruct (displayedTracks_spec [track_A; track_B; track_C] [chill_playlist]
              (Some (sp_id chill_playlist))) as [_ H].
  destruct (H chill_playlist "Chill" eq_refl eq_refl eq_refl) as [Heq _].
  rewrite Heq. reflexivity.
Defined.

(** C3 fails as stated: under a playlist whose criteria hold no mood, both
    sides of the comparison are [undefined] for a track without insight, and
    the track is shown. *)
Lemma moodless_playlist_shows_track_without_insight :
  displayedTracks [track_A; track_B; track_C] [moodless_playlist] (Some "p7") = [track_B]
  /\ insight track_B = None.
Proof. split; reflexivity. Qed.

(** The comparison does not see letter case. *)
Lemma has_mood_ignores_case :
  has_mood "CHILL" track_A = true /\ has_mood "chill" track_A = true.
Proof. split; reflexivity. Qed.

End SmartViewFacts.

(** ** Enrichment pipeline *)

Section EnrichmentFacts.
Import Enrichment.

(** *** Runs *)

Lemma run_snoc (s : App) (evs : list Event) (ev : Event) :
  run s (evs ++ [ev]) = step (run s evs) ev.
Proof. unfold run. rewrite foldl_app. reflexivity. Qed.

Lemma run_preserves (P : App -> Prop) :
  (forall s ev, P s -> P (step s ev)) ->
  forall evs s, P s -> P (run s evs).
Proof.
  intros Hstep evs. induction evs as [|ev evs IH]; intros s Hs; simpl.
  - exact Hs.
  - apply IH. apply Hstep. exact Hs.
Qed.

Lemma step_is_micro (s : App) (ev : Event) :
  step s ev = micro s ev (length (segment s ev)).
Proof. unfold step, micro. rewrite firstn_all. reflexivity. Qed.

(** *** The code of each event *)

Lemma segment_effect_cases (s : App) :
  segment s EffectRun = []
  \/ exists u, effectDue s = true /\ List.find unprocessed (tracks s) = Some u
       /\ isInsightLoading s = false
       /\ segment s EffectRun = [SetIsInsightLoading true; GetTrackInsight u].
Proof.
  unfold segment, analyzeUnprocessed.
  destruct (effectDue s); [|left; reflexivity].
  destruct (List.find unprocessed (tracks s)) as [u|]; [|left; reflexivity].
  destruct (isInsightLoading s); [left; reflexivity|].
  right. exists u. repeat split.
Qed.

Lemma segment_settled_cases (s : App) (k : nat) (r : Settlement) :
  (segment s (InsightSettled k r) = [] /\ (pending s !! k = None \/ r = Rejected))
  \/ (exists u, pending s !! k = Some u /\ r = Fulfilled None
        /\ segment s (InsightSettled k r) = [SetIsInsightLoading false])
  \/ (exists u i, pending s !! k = Some u /\ r = Fulfilled (Some i)
        /\ segment s (InsightSettled k r)
           = [SetTracksInsight (id u) i; SetIsInsightLoading false]).
Proof.
  unfold segment. destruct (pending s !! k) as [u|]; [|left; split; [reflexivity | left; reflexivity]].
  destruct r as [[i|]|]; simpl.
  - right. right. exists u, i. repeat split.
  - right. left. exists u. repeat split.
  - left. split; [reflexivity | right; reflexivity].
Qed.

(** *** Single flight *)

Lemma single_flight_idle (s : App) :
  single_flight s -> isInsightLoading s = false -> pending s = [].
Proof.
  intros [_ Hflag] Hld. destruct (pending s) as [|u l]; [reflexivity|].
  rewrite Hflag in Hld by discriminate. discriminate.
Qed.

Lemma single_flight_lookup (s : App) (k : nat) (u : Track) :
  single_flight s -> pending s !! k = Some u -> k = 0%nat /\ pending s = [u].
Proof.
  intros [Hlen _] Hk. destruct (pending s) as [|v [|w l]]; simpl in *.
  - discriminate.
  - destruct k; simpl in Hk; [|discriminate]. inversion Hk. split; reflexivity.
  - lia.
Qed.

Ltac sf_close Hpd :=
  unfold single_flight; simpl; rewrite ?take_nil; simpl; rewrite ?Hpd; simpl;
  split; [lia | intros; try reflexivity; congruence].

Lemma micro_single_flight (s : App) (ev : Event) (n : nat) :
  single_flight s -> single_flight (micro s ev n).
Proof.
  intros Hsf. destruct ev as [|k r|files].
  - destruct (segment_effect_cases s) as [Hseg | (u & Hdue & Hfind & Hld & Hseg)];
      unfold micro; rewrite Hseg.
    + rewrite take_nil. exact Hsf.
    + pose proof (single_flight_idle s Hsf Hld) as Hpd.
      destruct n as [|[|n]]; sf_close Hpd.
  - destruct (segment_settled_cases s k r)
      as [[Hseg _] | [(u & Hk & _ & Hseg) | (u & i & Hk & _ & Hseg)]];
      unfold micro; rewrite Hseg.
    + rewrite take_nil. destruct Hsf as [Hlen Hflag]. unfold single_flight. simpl.
      split.
      * pose proof (sublist_length _ _ (sublist_delete (pending s) k)). lia.
      * intros Hne. apply Hflag. intros Hnil. rewrite Hnil in Hne.
        destruct k; simpl in Hne; congruence.
    + destruct (single_flight_lookup s k u Hsf Hk) as [-> Hpd].
      destruct n as [|n]; sf_close Hpd.
    + destruct (single_flight_lookup s k u Hsf Hk) as [-> Hpd].
      destruct n as [|[|n]]; sf_close Hpd.
  - unfold micro, segment, handleFileUpload.
    destruct n as [|n]; simpl; [exact Hsf|]. rewrite take_nil. exact Hsf.
Qed.

Lemma step_single_flight (s : App) (ev : Event) :
  single_flight s -> single_flight (step s ev).
Proof. rewrite step_is_micro. apply micro_single_flight. Qed.

Lemma init_single_flight : single_flight init.
Proof. split; simpl; [lia | congruence]. Qed.

Lemma run_single_flight (evs : list Event) : single_flight (run init evs).
Proof. apply (run_preserves single_flight step_single_flight). apply init_single_flight. Qed.

(** C1. In every state the pipeline can reach, between any two calls of
    its code, at most one request is outstanding, and while one is
    outstanding the flag is set. [getTrackInsight] is called only by an
    effect run that saw the flag cleared (and no request outstanding), right
    after that run set the flag. The flag is cleared only by the continuation
    of a settled request, as the last call of that continuation. *)
Theorem single_flight_pipeline (evs : list Event) (ev : Event) (n : nat) :
  let s := run init evs in
  let m := micro s ev n in
  ((length (pending m) <= 1)%nat /\ (pending m <> [] -> isInsightLoading m = true))
  /\ (forall i u, segment s ev !! i = Some (GetTrackInsight u) ->
        ev = EffectRun /\ isInsightLoading s = false /\ pending s = []
        /\ i = 1%nat /\ segment s ev !! 0%nat = Some (SetIsInsightLoading true))
  /\ (forall i, segment s ev !! i = Some (SetIsInsightLoading false) ->
        S i = length (segment s ev)
        /\ exists k r u, ev = InsightSettled k r /\ pending s !! k = Some u
             /\ pending (begin s ev) = []).
Proof.
  intros s m. pose proof (run_single_flight evs) as Hsf. fold s in Hsf.
  split; [exact (micro_single_flight s ev n Hsf)|]. split.
  - intros i u Hi. destruct ev as [|k r|files].
    + destruct (segment_effect_cases s) as [Hseg | (v & Hdue & Hfind & Hld & Hseg)];
        rewrite Hseg in Hi |- *.
      * destruct i; discriminate.
      * destruct i as [|[|i]]; simpl in Hi; try discriminate.
        repeat split; [exact Hld | exact (single_flight_idle s Hsf Hld)].
    + destruct (segment_settled_cases s k r)
        as [[Hseg _] | [(v & _ & _ & Hseg) | (v & j & _ & _ & Hseg)]];
        rewrite Hseg in Hi; destruct i as [|[|i]]; discriminate.
    + destruct i as [|i]; simpl in Hi; [discriminate | destruct i; discriminate].
  - intros i Hi. destruct ev as [|k r|files].
    + destruct (segment_effect_cases s) as [Hseg | (v & _ & _ & _ & Hseg)];
        rewrite Hseg in Hi; destruct i as [|[|i]]; discriminate.
    + destruct (segment_settled_cases s k r)
        as [[Hseg _] | [(v & Hk & _ & Hseg) | (v & j & Hk & _ & Hseg)]];
        rewrite Hseg in Hi |- *.
      * destruct i; discriminate.
      * destruct i as [|i]; [|destruct i; discriminate].
        split; [reflexivity|]. exists k, r, v.
        destruct (single_flight_lookup s k v Hsf Hk) as [-> Hpd].
        repeat split; [exact Hk | simpl; rewrite Hpd; reflexivity].
      * destruct i as [|[|i]]; try discriminate.
        split; [reflexivity|]. exists k, r, v.
        destruct (single_flight_lookup s k v Hsf Hk) as [-> Hpd].
        repeat split; [exact Hk | simpl; rewrite Hpd; reflexivity].
    + destruct i as [|i]; simpl in Hi; [discriminate | destruct i; discriminate].
Qed.

(** *** The catalog under the pipeline *)

Lemma find_app_Some {A : Type} (f : A -> bool) (l l' : list A) (x : A) :
  List.find f l = Some x -> List.find f (l ++ l') = Some x.
Proof.
  induction l as [|a l IH]; simpl; [discriminate|].
  destruct (f a); [trivial | exact IH].
Qed.

Lemma find_unprocessed_Some (l : list Track) (u : Track) :
  List.find unprocessed l = Some u -> In u l /\ insight u = None.
Proof.
  intros H. apply List.find_some in H as [Hin Hu]. split; [exact Hin|].
  unfold unprocessed in Hu. destruct (insight u); [discriminate | reflexivity].
Qed.

Lemma write_insight_ids (x : string) (i : AIInsight) (l : list Track) :
  List.map id (write_insight x i l) = List.map id l.
Proof.
  unfold write_insight. rewrite List.map_map. apply List.map_ext.
  intros t. destruct (String.eqb (id t) x); reflexivity.
Qed.

Lemma write_insight_lookup (x : string) (i : AIInsight) (l : list Track) (n : nat) (t : Track) :
  l !! n = Some t ->
  write_insight x i l !! n
  = Some (if String.eqb (id t) x then with_insight t i else t).
Proof.
  revert n. induction l as [|a l IH]; intros n Hn; [destruct n; discriminate|].
  destruct n as [|n]; simpl in *.
  - inversion Hn. reflexivity.
  - apply IH. exact Hn.
Qed.

Lemma unique_id_track (l : list Track) (t u : Track) :
  NoDup (List.map id l) -> In t l -> In u l -> id t = id u -> t = u.
Proof.
  induction l as [|a l IH]; simpl; intros Hnd Ht Hu Hid; [contradiction|].
  apply NoDup_cons in Hnd as [Ha Hnd].
  destruct Ht as [-> | Ht], Hu as [-> | Hu].
  - reflexivity.
  - exfalso. apply Ha. rewrite Hid. apply list_elem_of_In. apply List.in_map. exact Hu.
  - exfalso. apply Ha. rewrite <- Hid. apply list_elem_of_In. apply List.in_map. exact Ht.
  - apply IH; assumption.
Qed.

Lemma step_pending_first (s : App) (ev : Event) :
  single_flight s -> pending_is_first_unprocessed s ->
  pending_is_first_unprocessed (step s ev).
Proof.
  intros Hsf Hpend.
  destruct ev as [|k r|files]; unfold step.
  - destruct (segment_effect_cases s) as [Hseg | (u & Hdue & Hfind & Hld & Hseg)];
      rewrite Hseg; simpl.
    + exact Hpend.
    + intros v Hv. simpl in Hv.
      rewrite (single_flight_idle s Hsf Hld) in Hv. simpl in Hv.
      destruct Hv as [<- | []]. exact Hfind.
  - destruct (segment_settled_cases s k r)
      as [[Hseg Hwhy] | [(u & Hk & _ & Hseg) | (u & i & Hk & _ & Hseg)]];
      rewrite Hseg; simpl.
    + intros v Hv. simpl in Hv. apply Hpend.
      apply list_elem_of_In. apply list_elem_of_In in Hv.
      exact (list_elem_of_delete_inv v k (pending s) Hv).
    + destruct (single_flight_lookup s k u Hsf Hk) as [-> Hpd].
      intros v Hv. simpl in Hv. rewrite Hpd in Hv. destruct Hv.
    + destruct (single_flight_lookup s k u Hsf Hk) as [-> Hpd].
      intros v Hv. simpl in Hv. rewrite Hpd in Hv. destruct Hv.
  - simpl. intros v Hv. simpl in *. apply find_app_Some. apply Hpend. exact Hv.
Qed.

Lemma uploaded_ids_snoc (evs : list Event) (ev : Event) :
  uploaded_ids (evs ++ [ev]) = (uploaded_ids evs ++ drawn_ids ev)%list.
Proof.
  unfold uploaded_ids. rewrite List.map_app, concat_app. simpl.
  rewrite app_nil_r. reflexivity.
Qed.

Lemma step_ids (s : App) (ev : Event) :
  List.map id (tracks (step s ev)) = (List.map id (tracks s) ++ drawn_ids ev)%list.
Proof.
  destruct ev as [|k r|files]; unfold step.
  - destruct (segment_effect_cases s) as [Hseg | (u & _ & _ & _ & Hseg)];
      rewrite Hseg; simpl; rewrite app_nil_r; reflexivity.
  - destruct (segment_settled_cases s k r)
      as [[Hseg _] | [(u & _ & _ & Hseg) | (u & i & _ & _ & Hseg)]];
      rewrite Hseg; simpl; rewrite app_nil_r; try reflexivity.
    apply write_insight_ids.
  - simpl. rewrite List.map_app, List.map_map. reflexivity.
Qed.

Lemma run_ids (evs : list Event) :
  List.map id (tracks (run init evs)) = uploaded_ids evs.
Proof.
  induction evs as [|ev evs IH] using rev_ind; [reflexivity|].
  rewrite run_snoc, step_ids, uploaded_ids_snoc, IH. reflexivity.
Qed.

(** *** Settlements *)

Lemma run_pending_first (evs : list Event) :
  pending_is_first_unprocessed (run init evs).
Proof.
  apply (run_preserves (fun s => single_flight s /\ pending_is_first_unprocessed s)).
  - intros s ev [Hsf Hp]. split; [apply step_single_flight | apply step_pending_first]; assumption.
  - split; [exact init_single_flight | intros u []].
Qed.

(** While the flag is set, events other than a settlement issue no
    request. *)
Lemma step_while_loading (s : App) (ev : Event) :
  isInsightLoading s = true -> is_settlement ev = false ->
  isInsightLoading (step s ev) = true
  /\ pending (step s ev) = pending s
  /\ requests (step s ev) = requests s.
Proof.
  intros Hld Hev. destruct ev as [|k r|files]; [| discriminate |]; unfold step.
  - destruct (segment_effect_cases s) as [Hseg | (u & _ & _ & Hfalse & _)].
    + rewrite Hseg. simpl. repeat split. exact Hld.
    + congruence.
  - simpl. repeat split; [exact Hld|].
    unfold requests. simpl. rewrite omap_app. simpl. apply app_nil_r.
Qed.

Lemma run_while_loading (evs : list Event) (s : App) :
  isInsightLoading s = true ->
  forallb (fun ev => negb (is_settlement ev)) evs = true ->
  isInsightLoading (run s evs) = true
  /\ pending (run s evs) = pending s
  /\ requests (run s evs) = requests s.
Proof.
  revert s. induction evs as [|ev evs IH]; intros s Hld Hq; simpl in *.
  - repeat split. exact Hld.
  - apply andb_prop in Hq as [Hev Hq]. apply Bool.negb_true_iff in Hev.
    destruct (step_while_loading s ev Hld Hev) as (Hld' & Hpd' & Hrq').
    destruct (IH (step s ev) Hld' Hq) as (H1 & H2 & H3).
    repeat split; congruence.
Qed.




(** With an insight for [X], the next request is the one for [Y]. *)
Lemma X_enriched_then_Y_requested :
  requests (run init X_enriched) = [track_X]
  /\ requests (run init (X_enriched ++ [EffectRun])) = [track_X; track_Y].
Proof. split; reflexivity. Qed.

(** A rejected call leaves the flag set: no continuation runs, and no later
    effect run issues a request. *)
Lemma rejection_stops_requests (evs' : list Event) :
  let s := step (run init X_requested) (InsightSettled 0 Rejected) in
  isInsightLoading s = true /\ pending s = []
  /\ (forallb (fun ev => negb (is_settlement ev)) evs' = true ->
      requests (run s evs') = [track_X]).
Proof.
  intros s. split; [reflexivity|]. split; [reflexivity|]. intros Hq.
  destruct (run_while_loading evs' s eq_refl Hq) as (_ & _ & Hr).
  rewrite Hr. reflexivity.
Qed.

End EnrichmentFacts.

(** ** More of the transport *)

Section ControlsFacts.
Import Transport Controls.

Ltac zsplit :=
  repeat match goal with
    | |- context [?a <? ?b] => destruct (Z.ltb_spec a b)
    | |- context [?a >=? ?b] => rewrite (Z.geb_leb a b); destruct (Z.leb_spec b a)
    | |- context [?a >? ?b] => rewrite (Z.gtb_ltb a b); destruct (Z.ltb_spec b a)
    | |- context [?a =? ?b] => destruct (Z.eqb_spec a b)
    end; simpl.

Lemma playTrack_cases (view : list Track) (i : Z) (ps : PlayerState) :
  (~ selects view i /\ playTrack view i ps = ps)
  \/ (selects view i
      /\ playTrack view i ps
         = {| isPlaying := true; currentTrackIndex := i; volume := volume ps;
              currentTime := currentTime ps; repeatMode := repeatMode ps;
              isShuffle := isShuffle ps |}).
Proof.
  unfold playTrack, selects. zsplit; (left; split; [lia | reflexivity])
                                     || (right; split; [lia | reflexivity]).
Qed.

Lemma playTrack_settings (view : list Track) (i : Z) (ps : PlayerState) :
  volume (playTrack view i ps) = volume ps
  /\ currentTime (playTrack view i ps) = currentTime ps
  /\ repeatMode (playTrack view i ps) = repeatMode ps
  /\ isShuffle (playTrack view i ps) = isShuffle ps.
Proof.
  destruct (playTrack_cases view i ps) as [[_ ->] | [_ ->]]; repeat split.
Qed.

Lemma playTrack_moves (view : list Track) (i : Z) (ps : PlayerState) :
  currentTrackIndex (playTrack view i ps) = currentTrackIndex ps
  \/ selects view (currentTrackIndex (playTrack view i ps)).
Proof.
  destruct (playTrack_cases view i ps) as [[_ ->] | [Hi ->]];
    [left; reflexivity | right; exact Hi].
Qed.

(** X1. Whatever the view and the state, each transport operation either
    leaves [currentTrackIndex] as it is or sets it to an index of the view:
    no operation can move the selection outside the view. *)
Theorem transport_index_within_view (view : list Track) (ps : PlayerState) :
  let kept_or_valid (s : PlayerState) :=
    currentTrackIndex s = currentTrackIndex ps
    \/ selects view (currentTrackIndex s) in
  (forall i, kept_or_valid (playTrack view i ps))
  /\ kept_or_valid (togglePlay view ps)
  /\ kept_or_valid (nextTrack view ps)
  /\ kept_or_valid (prevTrack view ps).
Proof.
  cbv zeta. split; [|split; [|split]].
  - intros i. apply playTrack_moves.
  - unfold togglePlay. destruct (_ && _); [apply playTrack_moves | left; reflexivity].
  - unfold nextTrack. destruct (repeatMode ps);
      [apply playTrack_moves | apply playTrack_moves | left; reflexivity].
  - unfold prevTrack. apply playTrack_moves.
Qed.

(** X2. None of [togglePlay], [nextTrack] and [prevTrack] changes the
    volume, the current time, the repeat mode or the shuffle flag. *)
Theorem transport_keeps_settings (view : list Track) (ps : PlayerState) :
  let same_settings (s : PlayerState) :=
    volume s = volume ps /\ currentTime s = currentTime ps
    /\ repeatMode s = repeatMode ps /\ isShuffle s = isShuffle ps in
  same_settings (togglePlay view ps)
  /\ same_settings (nextTrack view ps)
  /\ same_settings (prevTrack view ps).
Proof.
  cbv zeta. split; [|split].
  - unfold togglePlay. destruct (_ && _); [apply playTrack_settings | repeat split].
  - unfold nextTrack. destruct (repeatMode ps) eqn:Hm; cbv zeta; repeat split;
      first [ exact Hm
            | apply playTrack_settings
            | etransitivity; [apply playTrack_settings | exact Hm] ].
  - unfold prevTrack. apply playTrack_settings.
Qed.

Lemma playTrack_selected (view : list Track) (i : Z) (ps : PlayerState) :
  selects view i ->
  playTrack view i ps
  = {| isPlaying := true; currentTrackIndex := i; volume := volume ps;
       currentTime := currentTime ps; repeatMode := repeatMode ps;
       isShuffle := isShuffle ps |}.
Proof.
  intros Hi. destruct (playTrack_cases view i ps) as [[Hno _] | [_ H]];
    [contradiction | exact H].
Qed.

Lemma nextTrack_repeat_none (view : list Track) (ps : PlayerState) :
  repeatMode ps = RepeatNone -> selects view (currentTrackIndex ps) ->
  nextTrack view ps
  = {| isPlaying := true;
       currentTrackIndex := Z.min (currentTrackIndex ps + 1) (view_length view - 1);
       volume := volume ps; currentTime := currentTime ps;
       repeatMode := RepeatNone; isShuffle := isShuffle ps |}.
Proof.
  intros Hm [H0 H1]. unfold nextTrack. rewrite Hm. cbv zeta.
  rewrite Z.geb_leb. destruct (Z.leb_spec (view_length view) (currentTrackIndex ps + 1)).
  - rewrite playTrack_selected by (unfold selects; lia). rewrite Hm. f_equal. lia.
  - rewrite playTrack_selected by (unfold selects; lia). rewrite Hm. f_equal. lia.
Qed.

Lemma nextTrack_repeat_all (view : list Track) (ps : PlayerState) :
  repeatMode ps = RepeatAll -> selects view (currentTrackIndex ps) ->
  nextTrack view ps
  = {| isPlaying := true;
       currentTrackIndex := (currentTrackIndex ps + 1) mod view_length view;
       volume := volume ps; currentTime := currentTime ps;
       repeatMode := RepeatAll; isShuffle := isShuffle ps |}.
Proof.
  intros Hm [H0 H1]. unfold nextTrack. rewrite Hm. cbv zeta.
  rewrite Z.geb_leb. destruct (Z.leb_spec (view_length view) (currentTrackIndex ps + 1)).
  - rewrite playTrack_selected by (unfold selects; lia). rewrite Hm. f_equal.
    replace (currentTrackIndex ps + 1) with (view_length view) by lia.
    rewrite Z.mod_same by lia. reflexivity.
  - rewrite playTrack_selected by (unfold selects; lia). rewrite Hm. f_equal.
    rewrite Z.mod_small by lia. reflexivity.
Qed.

Lemma prevTrack_repeat_all (view : list Track) (ps : PlayerState) :
  repeatMode ps = RepeatAll -> selects view (currentTrackIndex ps) ->
  prevTrack view ps
  = {| isPlaying := true;
       currentTrackIndex := (currentTrackIndex ps - 1) mod view_length view;
       volume := volume ps; currentTime := currentTime ps;
       repeatMode := RepeatAll; isShuffle := isShuffle ps |}.
Proof.
  intros Hm [H0 H1]. unfold prevTrack. rewrite Hm. cbv zeta.
  destruct (Z.ltb_spec (currentTrackIndex ps - 1) 0).
  - rewrite playTrack_selected by (unfold selects; lia). rewrite Hm. f_equal.
    replace (currentTrackIndex ps - 1) with (-1) by lia.
    apply (Z.mod_unique _ _ (-1)); lia.
  - rewrite playTrack_selected by (unfold selects; lia). rewrite Hm. f_equal.
    rewrite Z.mod_small by lia. reflexivity.
Qed.

Lemma prevTrack_no_wrap (view : list Track) (ps : PlayerState) :
  repeatMode ps <> RepeatAll -> selects view (currentTrackIndex ps) ->
  prevTrack view ps
  = {| isPlaying := true;
       currentTrackIndex := Z.max (currentTrackIndex ps - 1) 0;
       volume := volume ps; currentTime := currentTime ps;
       repeatMode := repeatMode ps; isShuffle := isShuffle ps |}.
Proof.
  intros Hm [H0 H1]. unfold prevTrack. cbv zeta.
  destruct (Z.ltb_spec (currentTrackIndex ps - 1) 0).
  - destruct (repeatMode ps) eqn:E; [| congruence |];
      rewrite playTrack_selected by (unfold selects; lia); rewrite E; f_equal; lia.
  - rewrite playTrack_selected by (unfold selects; lia). f_equal. lia.
Qed.

(** X3. Under repeat-all, from any selected index, [nextTrack] and
    [prevTrack] undo each other, in both orders and at both ends of the
    view. *)
Theorem repeat_all_next_prev_inverse (view : list Track) (ps : PlayerState) :
  repeatMode ps = RepeatAll ->
  selects view (currentTrackIndex ps) ->
  currentTrackIndex (prevTrack view (nextTrack view ps)) = currentTrackIndex ps
  /\ currentTrackIndex (nextTrack view (prevTrack view ps)) = currentTrackIndex ps.
Proof.
  intros Hm Hsel. pose proof Hsel as [H0 H1].
  assert (Hlen : 0 < view_length view) by lia.
  split.
  - rewrite (nextTrack_repeat_all view ps Hm Hsel).
    rewrite prevTrack_repeat_all; simpl;
      [| reflexivity | unfold selects; apply Z.mod_pos_bound; exact Hlen].
    rewrite Zminus_mod_idemp_l.
    replace (currentTrackIndex ps + 1 - 1) with (currentTrackIndex ps) by lia.
    apply Z.mod_small. lia.
  - rewrite (prevTrack_repeat_all view ps Hm Hsel).
    rewrite nextTrack_repeat_all; simpl;
      [| reflexivity | unfold selects; apply Z.mod_pos_bound; exact Hlen].
    rewrite Zplus_mod_idemp_l.
    replace (currentTrackIndex ps - 1 + 1) with (currentTrackIndex ps) by lia.
    apply Z.mod_small. lia.
Qed.

Lemma repeat_all_next_prev_inverse_at_last :
  currentTrackIndex (prevTrack three_tracks (nextTrack three_tracks at_last_of_three)) = 2
  /\ currentTrackIndex (nextTrack three_tracks (prevTrack three_tracks at_last_of_three)) = 2.
Proof.
  apply (repeat_all_next_prev_inverse three_tracks at_last_of_three).
  - reflexivity.
  - unfold selects, view_length. simpl. lia.
Defined.

(** X4. Under repeat-none, [n] presses of next (or [n] ends of track) from
    a selected index lead to index [min (i + n) (last index)]: the player
    walks forward and then stays on the last track, which is left playing. *)
Theorem next_n_times_repeat_none (view : list Track) (ps : PlayerState) (n : nat) :
  repeatMode ps = RepeatNone ->
  selects view (currentTrackIndex ps) ->
  currentTrackIndex (Nat.iter n (nextTrack view) ps)
    = Z.min (currentTrackIndex ps + Z.of_nat n) (view_length view - 1)
  /\ ((0 < n)%nat -> isPlaying (Nat.iter n (nextTrack view) ps) = true).
Proof.
  intros Hm Hsel. pose proof Hsel as [H0 H1].
  assert (H : repeatMode (Nat.iter n (nextTrack view) ps) = RepeatNone
              /\ currentTrackIndex (Nat.iter n (nextTrack view) ps)
                 = Z.min (currentTrackIndex ps + Z.of_nat n) (view_length view - 1)
              /\ ((0 < n)%nat -> isPlaying (Nat.iter n (nextTrack view) ps) = true)).
  { induction n as [|n IH].
    - simpl. split; [exact Hm|]. split; [lia | intros Hn; exfalso; inversion Hn].
    - destruct IH as (IHm & IHi & _). rewrite Nat.iter_succ.
      rewrite nextTrack_repeat_none; [simpl | exact IHm | unfold selects; lia].
      split; [reflexivity|]. split; [lia | reflexivity]. }
  exact (proj2 H).
Qed.

Lemma next_n_times_repeat_none_five :
  currentTrackIndex (Nat.iter 5 (nextTrack three_tracks) playing_first) = 2
  /\ isPlaying (Nat.iter 5 (nextTrack three_tracks) playing_first) = true.
Proof.
  assert (Hsel : selects three_tracks (currentTrackIndex playing_first))
    by (unfold selects, view_length; simpl; lia).
  destruct (next_n_times_repeat_none three_tracks playing_first 5 eq_refl Hsel) as [Hi Hp].
  split; [exact Hi | apply Hp; lia].
Defined.

(** X5. Under repeat-all, [n] presses of next from a selected index lead to
    index [(i + n) mod view.length]. *)
Theorem next_n_times_repeat_all (view : list Track) (ps : PlayerState) (n : nat) :
  repeatMode ps = RepeatAll ->
  selects view (currentTrackIndex ps) ->
  currentTrackIndex (Nat.iter n (nextTrack view) ps)
    = (currentTrackIndex ps + Z.of_nat n) mod view_length view.
Proof.
  intros Hm Hsel. pose proof Hsel as [H0 H1].
  assert (Hlen : 0 < view_length view) by lia.
  assert (H : repeatMode (Nat.iter n (nextTrack view) ps) = RepeatAll
              /\ currentTrackIndex (Nat.iter n (nextTrack view) ps)
                 = (currentTrackIndex ps + Z.of_nat n) mod view_length view).
  { induction n as [|n IH].
    - simpl. split; [exact Hm|]. rewrite Z.add_0_r. symmetry. apply Z.mod_small. lia.
    - destruct IH as (IHm & IHi). rewrite Nat.iter_succ.
      rewrite nextTrack_repeat_all;
        [simpl | exact IHm
         | unfold selects; rewrite IHi; apply Z.mod_pos_bound; exact Hlen].
      split; [reflexivity|]. rewrite IHi, Zplus_mod_idemp_l. f_equal. lia. }
  exact (proj2 H).
Qed.

Lemma next_n_times_repeat_all_four :
  currentTrackIndex (Nat.iter 4 (nextTrack three_tracks) at_first_of_three) = 1.
Proof.
  apply (next_n_times_repeat_all three_tracks at_first_of_three 4).
  - reflexivity.
  - unfold selects, view_length. simpl. lia.
Defined.

(** X6. Unless the mode is repeat-all, [n] presses of previous from a
    selected index lead to index [max (i - n) 0]; [prevTrack] does this
    under repeat-one too, where [nextTrack] leaves the state alone. *)
Theorem prev_n_times_no_wrap (view : list Track) (ps : PlayerState) (n : nat) :
  repeatMode ps <> RepeatAll ->
  selects view (currentTrackIndex ps) ->
  currentTrackIndex (Nat.iter n (prevTrack view) ps)
    = Z.max (currentTrackIndex ps - Z.of_nat n) 0
  /\ (repeatMode ps = RepeatOne -> nextTrack view ps = ps).
Proof.
  intros Hm Hsel. pose proof Hsel as [H0 H1]. split.
  - assert (H : repeatMode (Nat.iter n (prevTrack view) ps) = repeatMode ps
                /\ currentTrackIndex (Nat.iter n (prevTrack view) ps)
                   = Z.max (currentTrackIndex ps - Z.of_nat n) 0).
    { induction n as [|n IH].
      - simpl. split; [reflexivity | lia].
      - destruct IH as (IHm & IHi). rewrite Nat.iter_succ.
        rewrite prevTrack_no_wrap;
          [simpl | rewrite IHm; exact Hm | unfold selects; lia].
        split; [exact IHm | lia]. }
    exact (proj2 H).
  - intros Hone. unfold nextTrack. rewrite Hone. reflexivity.
Qed.

Lemma prev_n_times_no_wrap_from_middle :
  currentTrackIndex (Nat.iter 3 (prevTrack three_tracks) at_middle_of_three) = 0.
Proof.
  apply (prev_n_times_no_wrap three_tracks at_middle_of_three 3).
  - discriminate.
  - unfold selects, view_length. simpl. lia.
Defined.

(** X7. Pressing play/pause twice gives back the state exactly when a
    track was selected or the view is empty; from "nothing selected" on a
    view with tracks the first press selects track 0, and the second only
    pauses it. *)
Theorem togglePlay_twice (view : list Track) (ps : PlayerState) :
  togglePlay view (togglePlay view ps) = ps
  <-> (currentTrackIndex ps <> -1 \/ view = []).
Proof.
  assert (Hflip : forall s, flip_isPlaying (flip_isPlaying s) = s).
  { intros [p i v t m sh]. unfold flip_isPlaying. simpl.
    rewrite Bool.negb_involutive. reflexivity. }
  split.
  - intros Htwice.
    destruct (Z.eq_dec (currentTrackIndex ps) (-1)) as [Hi|Hi]; [|left; exact Hi].
    destruct view as [|t view]; [right; reflexivity | exfalso].
    assert (Hfirst : currentTrackIndex (togglePlay (t :: view) ps) = 0).
    { unfold togglePlay. rewrite Hi. unfold view_length. simpl. reflexivity. }
    assert (Hsecond : currentTrackIndex (togglePlay (t :: view) (togglePlay (t :: view) ps)) = 0).
    { unfold togglePlay at 1. rewrite Hfirst. simpl. reflexivity. }
    rewrite Htwice in Hsecond. lia.
  - intros Hcase.
    assert (Hone : forall s, currentTrackIndex s = currentTrackIndex ps ->
                     togglePlay view s = flip_isPlaying s).
    { intros s Hs. unfold togglePlay, flip_isPlaying. rewrite Hs.
      destruct Hcase as [Hi | ->].
      - destruct (Z.eqb_spec (currentTrackIndex ps) (-1)); [contradiction | reflexivity].
      - unfold view_length. simpl. rewrite Bool.andb_false_r. reflexivity. }
    rewrite (Hone ps eq_refl). rewrite (Hone (flip_isPlaying ps) eq_refl). apply Hflip.
Qed.

(** X8. The shuffle flag is inert: flipping it before or after any
    transport operation gives the same state, so no operation ever reads
    it. *)
Theorem shuffle_is_not_consulted (view : list Track) (ps : PlayerState) :
  (forall i, playTrack view i (toggleShuffle ps) = toggleShuffle (playTrack view i ps))
  /\ togglePlay view (toggleShuffle ps) = toggleShuffle (togglePlay view ps)
  /\ nextTrack view (toggleShuffle ps) = toggleShuffle (nextTrack view ps)
  /\ prevTrack view (toggleShuffle ps) = toggleShuffle (prevTrack view ps).
Proof.
  assert (Hplay : forall i, playTrack view i (toggleShuffle ps)
                            = toggleShuffle (playTrack view i ps)).
  { intros i. unfold playTrack. destruct (_ || _); reflexivity. }
  split; [exact Hplay|]. split; [|split].
  - unfold togglePlay. simpl. destruct (_ && _); [apply Hplay | reflexivity].
  - unfold nextTrack. simpl. destruct (repeatMode ps); try apply Hplay. reflexivity.
  - unfold prevTrack. simpl. apply Hplay.
Qed.

(** X9. The repeat button cycles none, all, one: the read of [modes] never
    misses, one and two presses each give another mode, three presses give
    back the state, and no other field changes. *)
Theorem cycleRepeatMode_period_three (ps : PlayerState) :
  is_Some (next_mode (repeatMode ps))
  /\ repeatMode (cycleRepeatMode ps) <> repeatMode ps
  /\ repeatMode (cycleRepeatMode (cycleRepeatMode ps)) <> repeatMode ps
  /\ cycleRepeatMode (cycleRepeatMode (cycleRepeatMode ps)) = ps
  /\ (repeatMode ps = RepeatNone -> repeatMode (cycleRepeatMode ps) = RepeatAll)
  /\ (repeatMode ps = RepeatAll -> repeatMode (cycleRepeatMode ps) = RepeatOne)
  /\ (repeatMode ps = RepeatOne -> repeatMode (cycleRepeatMode ps) = RepeatNone).
Proof.
  destruct ps as [p i v t m sh]. destruct m; simpl;
    (split; [eexists; reflexivity|]);
    repeat split; try discriminate; intros H; discriminate H.
Qed.

(** X10. [currentTrack] is absent exactly when [currentTrackIndex] does not
    select a track of the view (nothing selected, or an index left over from
    a longer view); after [playTrack] at an index of the view it is the track
    at that index. *)
Theorem currentTrack_defined_iff_selected (view : list Track) (ps : PlayerState) :
  (currentTrack view ps = None <-> ~ selects view (currentTrackIndex ps))
  /\ (forall i, selects view i ->
        is_Some (view !! Z.to_nat i)
        /\ currentTrack view (playTrack view i ps) = view !! Z.to_nat i).
Proof.
  split.
  - unfold currentTrack, selects, view_length.
    destruct (Z.ltb_spec (currentTrackIndex ps) 0) as [Hneg | Hpos].
    + split; [intros _; lia | reflexivity].
    + rewrite lookup_ge_None. lia.
  - intros i Hsel. pose proof Hsel as [H0 H1]. unfold view_length in H1. split.
    + apply lookup_lt_is_Some. lia.
    + rewrite (playTrack_selected view i ps Hsel). unfold currentTrack. simpl.
      destruct (Z.ltb_spec i 0); [lia | reflexivity].
Qed.

Lemma displayedTracks_nil (smartPlaylists : list SmartPlaylist)
    (activeSmartPlaylistId : option string) :
  SmartView.displayedTracks [] smartPlaylists activeSmartPlaylistId = [].
Proof.
  unfold SmartView.displayedTracks. destruct (SmartView.falsy _); [reflexivity|].
  destruct (SmartView.find_playlist _ _); reflexivity.
Qed.

(** X11. Picking files changes the player only when nothing is selected,
    at least one file was picked and the view shown before the upload has a
    track: then track 0 of that view is selected and played. The check is
    made on the view before the new tracks are added, so the first upload
    into an empty catalog starts nothing. *)
Theorem upload_autoplay_uses_old_view (view : list Track)
    (files : list Enrichment.PickedFile) (ps : PlayerState)
    (smartPlaylists : list SmartPlaylist) (activeSmartPlaylistId : option string) :
  (currentTrackIndex ps <> -1 \/ files = [] \/ view = [] ->
   handleFileUpload_player view files ps = ps)
  /\ (currentTrackIndex ps = -1 -> files <> [] -> view <> [] ->
      currentTrackIndex (handleFileUpload_player view files ps) = 0
      /\ isPlaying (handleFileUpload_player view files ps) = true)
  /\ handleFileUpload_player
       (SmartView.displayedTracks [] smartPlaylists activeSmartPlaylistId) files ps = ps.
Proof.
  assert (Hskip : currentTrackIndex ps <> -1 \/ files = [] \/ view = [] ->
                  handleFileUpload_player view files ps = ps).
  { intros Hcase. unfold handleFileUpload_player.
    destruct Hcase as [Hi | [-> | ->]].
    - destruct (Z.eqb_spec (currentTrackIndex ps) (-1)); [contradiction | reflexivity].
    - simpl. rewrite Bool.andb_false_r. reflexivity.
    - destruct (_ && _); [|reflexivity]. apply playTrack_skip.
      unfold view_length. simpl. lia. }
  split; [exact Hskip|]. split.
  - intros Hi Hfiles Hview. unfold handleFileUpload_player. rewrite Hi.
    destruct files as [|f files]; [contradiction|].
    destruct view as [|t view]; [contradiction|].
    simpl. unfold playTrack, view_length. simpl. split; reflexivity.
  - unfold handleFileUpload_player.
    destruct (_ && _); [|reflexivity]. apply playTrack_skip.
    rewrite displayedTracks_nil. unfold view_length. simpl. lia.
Qed.

End ControlsFacts.

(** ** More of the smart view *)

Section SmartViewMore.
Import SmartView Controls.

Lemma filter_twice {A : Type} (f : A -> bool) (l : list A) :
  List.filter f (List.filter f l) = List.filter f l.
Proof.
  induction l as [|a l IH]; simpl; [reflexivity|].
  destruct (f a) eqn:E; simpl; [rewrite E, IH; reflexivity | exact IH].
Qed.

Lemma find_app_None {A : Type} (f : A -> bool) (l l' : list A) :
  List.find f l = None -> List.find f (l ++ l') = List.find f l'.
Proof.
  induction l as [|a l IH]; simpl; [reflexivity|].
  destruct (f a); [discriminate | exact IH].
Qed.

(** X12. Whatever the registry and the active id, the view is a
    subsequence of the catalog: tracks are only left out, never added,
    repeated or reordered, and the view is never longer than the catalog. *)
Theorem displayedTracks_sublist (tracks : list Track) (smartPlaylists : list SmartPlaylist)
    (activeSmartPlaylistId : option string) :
  sublist (displayedTracks tracks smartPlaylists activeSmartPlaylistId) tracks
  /\ (length (displayedTracks tracks smartPlaylists activeSmartPlaylistId)
      <= length tracks)%nat.
Proof.
  assert (H : sublist (displayedTracks tracks smartPlaylists activeSmartPlaylistId) tracks).
  { unfold displayedTracks. destruct (falsy _); [reflexivity|].
    destruct (find_playlist _ _); [apply filter_is_sublist | reflexivity]. }
  split; [exact H | apply sublist_length; exact H].
Qed.

(** X13. Appending tracks to the catalog appends their part of the view to
    the view: the tracks already shown keep their indices, so an index that
    selected a track before an upload selects the same track after it. *)
Theorem displayedTracks_append (tracks newTracks : list Track)
    (smartPlaylists : list SmartPlaylist) (activeSmartPlaylistId : option string)
    (ps : PlayerState) :
  displayedTracks (tracks ++ newTracks) smartPlaylists activeSmartPlaylistId
  = (displayedTracks tracks smartPlaylists activeSmartPlaylistId
     ++ displayedTracks newTracks smartPlaylists activeSmartPlaylistId)%list
  /\ (Transport.selects (displayedTracks tracks smartPlaylists activeSmartPlaylistId)
        (currentTrackIndex ps) ->
      currentTrack (displayedTracks (tracks ++ newTracks) smartPlaylists
                      activeSmartPlaylistId) ps
      = currentTrack (displayedTracks tracks smartPlaylists activeSmartPlaylistId) ps).
Proof.
  assert (Happ : displayedTracks (tracks ++ newTracks) smartPlaylists activeSmartPlaylistId
                 = (displayedTracks tracks smartPlaylists activeSmartPlaylistId
                    ++ displayedTracks newTracks smartPlaylists activeSmartPlaylistId)%list).
  { unfold displayedTracks. destruct (falsy _); [reflexivity|].
    destruct (find_playlist _ _); [apply List.filter_app | reflexivity]. }
  split; [exact Happ|].
  intros [H0 H1]. unfold Transport.view_length in H1.
  rewrite Happ. unfold currentTrack.
  destruct (Z.ltb_spec (currentTrackIndex ps) 0); [reflexivity|].
  apply lookup_app_l. lia.
Qed.

(** X14. Filtering a view again with the same playlist changes nothing. *)
Theorem displayedTracks_idempotent (tracks : list Track)
    (smartPlaylists : list SmartPlaylist) (activeSmartPlaylistId : option string) :
  displayedTracks (displayedTracks tracks smartPlaylists activeSmartPlaylistId)
    smartPlaylists activeSmartPlaylistId
  = displayedTracks tracks smartPlaylists activeSmartPlaylistId.
Proof.
  unfold displayedTracks. destruct (falsy _); [reflexivity|].
  destruct (find_playlist _ _); [apply filter_twice | reflexivity].
Qed.

Lemma registry_of_snoc (made : list (string * string)) (dm : string * string) :
  registry_of (made ++ [dm]) = addSmartPlaylist (fst dm) (snd dm) (registry_of made).
Proof. unfold registry_of. rewrite foldl_app. reflexivity. Qed.

Lemma registry_of_has_mood (made : list (string * string)) (p : SmartPlaylist) :
  In p (registry_of made) ->
  exists d m, In (d, m) made /\ p = createSmartPlaylist d m.
Proof.
  induction made as [|[d m] made IH] using rev_ind; [intros []|].
  rewrite registry_of_snoc. unfold addSmartPlaylist. simpl. intros Hin.
  apply List.in_app_or in Hin as [Hin | [<- | []]].
  - destruct (IH Hin) as (d' & m' & Hdm & ->).
    exists d', m'. split; [apply List.in_or_app; left; exact Hdm | reflexivity].
  - exists d, m. split; [apply List.in_or_app; right; left; reflexivity | reflexivity].
Qed.

(** X15. With a registry built only by [createSmartPlaylist], whenever the
    active id is not empty and a playlist carries it, every track of the view
    has an insight whose mood is, up to letter case, a mood some playlist was
    created with: a track without insight is never shown in a filtered view
    of the running component. *)
Theorem created_playlists_hide_unprocessed (made : list (string * string))
    (tracks : list Track) (activeSmartPlaylistId : option string) (t : Track) :
  falsy activeSmartPlaylistId = false ->
  find_playlist (registry_of made) activeSmartPlaylistId <> None ->
  In t (displayedTracks tracks (registry_of made) activeSmartPlaylistId) ->
  exists i d m, insight t = Some i /\ In (d, m) made
                /\ Some d = activeSmartPlaylistId
                /\ toLowerCase (mood i) = toLowerCase m.
Proof.
  intros Hf Hfind Hin. unfold displayedTracks in Hin. rewrite Hf in Hin.
  destruct (find_playlist (registry_of made) activeSmartPlaylistId) as [pl|] eqn:E;
    [clear Hfind | contradiction].
  unfold find_playlist in E. destruct activeSmartPlaylistId as [a|]; [|discriminate].
  apply List.find_some in E as [Hpl Hid].
  destruct (registry_of_has_mood made pl Hpl) as (d & m & Hdm & ->).
  apply List.filter_In in Hin as [_ Hmatch].
  rewrite (mood_matches_has_mood (createSmartPlaylist d m) m t eq_refl) in Hmatch.
  destruct (has_mood_insight m t Hmatch) as (i & Hi & Hlow).
  exists i, d, m. repeat split; try assumption.
  simpl in Hid. apply String.eqb_eq in Hid. rewrite Hid. reflexivity.
Qed.

Lemma created_playlists_hide_unprocessed_chill :
  exists i d m, insight track_A = Some i /\ In (d, m) [("k3x9q0w2z", "Chill")]
                /\ Some d = Some "k3x9q0w2z"
                /\ toLowerCase (mood i) = toLowerCase m.
Proof.
  apply (created_playlists_hide_unprocessed [("k3x9q0w2z", "Chill")]
           [track_A; track_B; track_C] (Some "k3x9q0w2z") track_A).
  - reflexivity.
  - discriminate.
  - left. reflexivity.
Defined.

(** X16. Creating a playlist leaves the current view as it is, unless the
    active id resolved to no playlist before and is the id just drawn: a
    playlist that is already active keeps its view even if a later playlist
    draws the same id. *)
Theorem addSmartPlaylist_keeps_view (tracks : list Track) (prev : list SmartPlaylist)
    (activeSmartPlaylistId : option string) (d m : string) :
  falsy activeSmartPlaylistId = true
  \/ find_playlist prev activeSmartPlaylistId <> None
  \/ activeSmartPlaylistId <> Some d ->
  displayedTracks tracks (addSmartPlaylist d m prev) activeSmartPlaylistId
  = displayedTracks tracks prev activeSmartPlaylistId.
Proof.
  intros Hcase. unfold displayedTracks.
  destruct (falsy activeSmartPlaylistId) eqn:Hf; [reflexivity|].
  destruct Hcase as [Habs | Hcase]; [discriminate|].
  assert (Hsame : find_playlist (addSmartPlaylist d m prev) activeSmartPlaylistId
                  = find_playlist prev activeSmartPlaylistId).
  { unfold find_playlist, addSmartPlaylist.
    destruct activeSmartPlaylistId as [a|]; [|reflexivity].
    destruct (List.find (fun p => String.eqb (sp_id p) a) prev) as [pl|] eqn:E.
    - apply find_app_Some. exact E.
    - rewrite (find_app_None _ _ _ E). simpl.
      destruct Hcase as [Hsome | Hne]; [unfold find_playlist in Hsome; contradiction|].
      destruct (String.eqb_spec d a) as [-> | _]; [contradiction | reflexivity]. }
  rewrite Hsame. reflexivity.
Qed.

Lemma addSmartPlaylist_keeps_view_active :
  displayedTracks [track_A; track_B; track_C]
    (addSmartPlaylist "k3x9q0w2z" "Dark" [chill_playlist]) (Some "k3x9q0w2z")
  = displayedTracks [track_A; track_B; track_C] [chill_playlist] (Some "k3x9q0w2z").
Proof.
  apply (addSmartPlaylist_keeps_view [track_A; track_B; track_C] [chill_playlist]
           (Some "k3x9q0w2z") "k3x9q0w2z" "Dark").
  right. left. discriminate.
Defined.

End SmartViewMore.

(** ** Titles of uploaded files *)

Section TitleFacts.
Import Enrichment.

Lemma string_of_list_ascii_app (l1 l2 : list ascii) :
  string_of_list_ascii (l1 ++ l2)
  = (string_of_list_ascii l1 ++ string_of_list_ascii l2)%string.
Proof. induction l1 as [|c l1 IH]; simpl; [reflexivity | rewrite IH; reflexivity]. Qed.

Lemma list_ascii_of_string_app (s1 s2 : string) :
  list_ascii_of_string (s1 ++ s2)
  = (list_ascii_of_string s1 ++ list_ascii_of_string s2)%list.
Proof. induction s1 as [|c s1 IH]; simpl; [reflexivity | rewrite IH; reflexivity]. Qed.

Lemma strip_extension_rev_Some (r r' : list ascii) (seen : bool) :
  strip_extension_rev r seen = Some r' ->
  exists e, r = (e ++ "."%char :: r')%list
            /\ (forall c, In c e -> c <> "."%char /\ c <> "/"%char)
            /\ (seen = true \/ e <> []).
Proof.
  revert seen. induction r as [|c r IH]; intros seen H; simpl in H; [discriminate|].
  destruct (Ascii.eqb_spec c "."%char) as [-> | Hdot].
  - destruct seen; [|discriminate]. inversion H; subst r'.
    exists []. split; [reflexivity|]. split; [intros c [] | left; reflexivity].
  - destruct (Ascii.eqb_spec c "/"%char) as [-> | Hslash]; [discriminate|].
    destruct (IH true H) as (e & -> & He & _).
    exists (c :: e). split; [reflexivity|]. split; [|right; discriminate].
    intros d [<- | Hd]; [split; assumption | apply He; exact Hd].
Qed.

Lemma strip_extension_rev_found (e r' : list ascii) (seen : bool) :
  (forall c, In c e -> c <> "."%char /\ c <> "/"%char) ->
  seen = true \/ e <> [] ->
  strip_extension_rev (e ++ "."%char :: r') seen = Some r'.
Proof.
  revert seen. induction e as [|c e IH]; intros seen He Hseen; simpl.
  - destruct Hseen as [-> | Hne]; [reflexivity | contradiction].
  - destruct (He c (or_introl eq_refl)) as [Hdot Hslash].
    destruct (Ascii.eqb_spec c "."%char); [contradiction|].
    destruct (Ascii.eqb_spec c "/"%char); [contradiction|].
    apply IH; [intros d Hd; apply He; right; exact Hd | left; reflexivity].
Qed.

Lemma strip_extension_rev_no_dot (r : list ascii) (seen : bool) :
  (forall c, In c r -> c <> "."%char) -> strip_extension_rev r seen = None.
Proof.
  revert seen. induction r as [|c r IH]; intros seen Hr; simpl; [reflexivity|].
  destruct (Ascii.eqb_spec c "."%char) as [-> | _].
  - exfalso. exact (Hr "."%char (or_introl eq_refl) eq_refl).
  - destruct (Ascii.eqb c "/"%char); [reflexivity|].
    apply IH. intros d Hd. apply Hr. right. exact Hd.
Qed.

(** X17. The title made from a file name is the name itself, or the name
    without one final extension: a dot followed by at least one character,
    none of them a dot or a slash. Nothing else is ever removed. *)
Theorem strip_extension_shape (name : string) :
  strip_extension name = name
  \/ exists ext,
       name = (strip_extension name ++ "." ++ ext)%string
       /\ ext <> ""
       /\ (forall c, In c (list_ascii_of_string ext) -> c <> "."%char /\ c <> "/"%char).
Proof.
  unfold strip_extension.
  destruct (strip_extension_rev (rev (list_ascii_of_string name)) false) as [r'|] eqn:E;
    [right | left; reflexivity].
  destruct (strip_extension_rev_Some _ _ _ E) as (e & Hrev & He & Hne).
  destruct Hne as [Habs | Hne]; [discriminate|].
  assert (Hname : list_ascii_of_string name = (rev r' ++ "."%char :: rev e)%list).
  { rewrite <- (rev_involutive (list_ascii_of_string name)), Hrev.
    rewrite rev_app_distr. simpl. rewrite <- app_assoc. reflexivity. }
  exists (string_of_list_ascii (rev e)). split; [|split].
  - rewrite <- (string_of_list_ascii_of_string name), Hname.
    rewrite string_of_list_ascii_app. reflexivity.
  - intros Hempty.
    apply (f_equal list_ascii_of_string) in Hempty.
    rewrite list_ascii_of_string_of_list_ascii in Hempty. simpl in Hempty.
    apply Hne. rewrite <- (rev_involutive e), Hempty. reflexivity.
  - intros c Hc. rewrite list_ascii_of_string_of_list_ascii in Hc.
    apply He. apply in_rev. exact Hc.
Qed.

(** X18. Adding an extension and making the title gives back the base name,
    for every base name (dots and slashes included) and every extension that
    is not empty and has no dot or slash; and a name without any dot is its
    own title. *)
Theorem strip_extension_round_trip (base ext name : string) :
  (ext <> "" ->
   (forall c, In c (list_ascii_of_string ext) -> c <> "."%char /\ c <> "/"%char) ->
   strip_extension (base ++ "." ++ ext) = base)
  /\ ((forall c, In c (list_ascii_of_string name) -> c <> "."%char) ->
      strip_extension name = name).
Proof.
  split.
  - intros Hne Hext. unfold strip_extension.
    rewrite list_ascii_of_string_app. simpl.
    rewrite rev_app_distr. simpl. rewrite <- app_assoc. simpl.
    rewrite strip_extension_rev_found.
    + rewrite rev_involutive. apply string_of_list_ascii_of_string.
    + intros c Hc. apply Hext. apply in_rev. exact Hc.
    + right. intros Hnil. apply Hne.
      rewrite <- (string_of_list_ascii_of_string ext).
      rewrite <- (rev_involutive (list_ascii_of_string ext)), Hnil. reflexivity.
  - intros Hname. unfold strip_extension.
    rewrite strip_extension_rev_no_dot; [reflexivity|].
    intros c Hc. apply Hname. apply in_rev. exact Hc.
Qed.

End TitleFacts.

(** ** More of the catalog and the pipeline *)

Section CatalogFacts.
Import Enrichment Controls.

Lemma uploaded_ids_app (evs1 evs2 : list Event) :
  uploaded_ids (evs1 ++ evs2) = (uploaded_ids evs1 ++ uploaded_ids evs2)%list.
Proof. unfold uploaded_ids. rewrite List.map_app, concat_app. reflexivity. Qed.

(** X19. After any run, the ids of the catalog are the ids drawn for the
    picked files, in the order the files were picked: the pipeline and the
    upload handler never remove, reorder or re-identify a track, and a longer
    run only appends. *)
Theorem catalog_follows_uploads (evs1 evs2 : list Event) :
  List.map id (tracks (run init evs1)) = uploaded_ids evs1
  /\ length (tracks (run init evs1)) = length (uploaded_ids evs1)
  /\ List.map id (tracks (run init (evs1 ++ evs2)))
     = (List.map id (tracks (run init evs1)) ++ uploaded_ids evs2)%list.
Proof.
  split; [apply run_ids|]. split.
  - rewrite <- run_ids. rewrite length_map. reflexivity.
  - rewrite !run_ids. apply uploaded_ids_app.
Qed.

Lemma find_first {A : Type} (f : A -> bool) (l : list A) (x : A) :
  List.find f l = Some x ->
  exists n, l !! n = Some x /\ f x = true
            /\ forall m y, (m < n)%nat -> l !! m = Some y -> f y = false.
Proof.
  induction l as [|a l IH]; simpl; [discriminate|].
  destruct (f a) eqn:Efa.
  - intros H. inversion H; subst a. exists 0%nat.
    split; [reflexivity|]. split; [exact Efa | intros m y Hm; lia].
  - intros H. destruct (IH H) as (n & Hn & Hfx & Hbefore).
    exists (S n). split; [exact Hn|]. split; [exact Hfx|].
    intros [|m] y Hm Hy; simpl in Hy.
    + inversion Hy; subst y. exact Efa.
    + apply (Hbefore m y); [lia | exact Hy].
Qed.

(** X20. Requests go oldest first: whenever an effect run calls
    [getTrackInsight], it is for a track of the catalog without insight such
    that every track before it in the catalog has an insight. *)
Theorem request_is_for_first_unprocessed (s : App) (u : Track) :
  In (GetTrackInsight u) (segment s EffectRun) ->
  exists n, tracks s !! n = Some u /\ insight u = None
            /\ forall m t, (m < n)%nat -> tracks s !! m = Some t -> insight t <> None.
Proof.
  intros Hin.
  destruct (segment_effect_cases s) as [Hseg | (v & _ & Hfind & _ & Hseg)];
    rewrite Hseg in Hin; [destruct Hin|].
  destruct Hin as [Habs | [Hv | []]]; [discriminate|]. inversion Hv; subst v.
  destruct (find_first unprocessed (tracks s) u Hfind) as (n & Hn & Hu & Hbefore).
  exists n. split; [exact Hn|]. split.
  - unfold unprocessed in Hu. destruct (insight u); [discriminate | reflexivity].
  - intros m t Hm Ht. specialize (Hbefore m t Hm Ht).
    unfold unprocessed in Hbefore. destruct (insight t); [discriminate | discriminate].
Qed.

Lemma request_is_for_first_unprocessed_X :
  exists n, tracks (run init [FilesUploaded [file_X; file_Y]]) !! n = Some track_X
            /\ insight track_X = None
            /\ forall m t, (m < n)%nat ->
                 tracks (run init [FilesUploaded [file_X; file_Y]]) !! m = Some t ->
                 insight t <> None.
Proof.
  apply (request_is_for_first_unprocessed (run init [FilesUploaded [file_X; file_Y]]) track_X).
  simpl. right. left. reflexivity.
Defined.

Lemma step_idle_done (s : App) (ev : Event) :
  single_flight s ->
  (isInsightLoading s = false -> effectDue s = false ->
   List.find unprocessed (tracks s) = None) ->
  isInsightLoading (step s ev) = false -> effectDue (step s ev) = false ->
  List.find unprocessed (tracks (step s ev)) = None.
Proof.
  intros Hsf Hidle. destruct ev as [|k r|files]; unfold step.
  - unfold segment, analyzeUnprocessed.
    destruct (effectDue s) eqn:Hdue; simpl.
    + destruct (List.find unprocessed (tracks s)) as [u|] eqn:Hfind; simpl.
      * destruct (isInsightLoading s) eqn:Hld; simpl; intros H1 H2; congruence.
      * intros _ _. exact Hfind.
    + intros H1 _. apply Hidle; [exact H1 | reflexivity].
  - destruct (segment_settled_cases s k r)
      as [[Hseg _] | [(u & Hk & _ & Hseg) | (u & i & Hk & _ & Hseg)]];
      rewrite Hseg; simpl.
    + exact Hidle.
    + destruct (single_flight_lookup s k u Hsf Hk) as [_ Hpd].
      rewrite (proj2 Hsf) by (rewrite Hpd; discriminate).
      rewrite Bool.orb_true_r. discriminate.
    + discriminate.
  - simpl. discriminate.
Qed.

(** X21. The pipeline rests only when it is done: in every reachable state
    in which the flag is clear and the effect is not due, every track of the
    catalog has an insight. *)
Theorem idle_means_all_processed (evs : list Event) (t : Track) :
  isInsightLoading (run init evs) = false ->
  effectDue (run init evs) = false ->
  In t (tracks (run init evs)) ->
  insight t <> None.
Proof.
  intros Hld Hdue Hin.
  assert (H : single_flight (run init evs)
              /\ (isInsightLoading (run init evs) = false ->
                  effectDue (run init evs) = false ->
                  List.find unprocessed (tracks (run init evs)) = None)).
  { apply (run_preserves
             (fun s => single_flight s
                       /\ (isInsightLoading s = false -> effectDue s = false ->
                           List.find unprocessed (tracks s) = None))).
    - intros s ev [Hsf Hidle]. split;
        [apply step_single_flight; exact Hsf | apply step_idle_done; assumption].
    - split; [exact init_single_flight | reflexivity]. }
  destruct H as [_ Hnone]. specialize (Hnone Hld Hdue).
  pose proof (List.find_none _ _ Hnone t Hin) as Ht.
  unfold unprocessed in Ht. destruct (insight t); [discriminate | discriminate].
Qed.

Lemma idle_means_all_processed_X :
  insight (with_insight track_X happy_insight) <> None.
Proof.
  apply (idle_means_all_processed (only_X_enriched ++ [EffectRun])
           (with_insight track_X happy_insight)).
  - reflexivity.
  - reflexivity.
  - left. reflexivity.
Defined.

Lemma step_stuck (s : App) (ev : Event) :
  isInsightLoading s = true -> pending s = [] ->
  isInsightLoading (step s ev) = true /\ pending (step s ev) = []
  /\ requests (step s ev) = requests s
  /\ insight_writes (step s ev) = insight_writes s
  /\ forall n t, tracks s !! n = Some t -> tracks (step s ev) !! n = Some t.
Proof.
  intros Hld Hpd. destruct ev as [|k r|files]; unfold step.
  - destruct (segment_effect_cases s) as [Hseg | (u & _ & _ & Hfalse & _)];
      [|congruence].
    rewrite Hseg. simpl. repeat split; try assumption. intros n t Hn; exact Hn.
  - unfold segment. rewrite Hpd, lookup_nil. simpl. rewrite Hpd.
    repeat split; try assumption; try (destruct k; reflexivity).
    intros n t Hn; exact Hn.
  - simpl. repeat split; try assumption.
    + unfold requests. simpl. rewrite omap_app. simpl. apply app_nil_r.
    + unfold insight_writes. simpl. rewrite omap_app. simpl. apply app_nil_r.
    + intros n t Hn. apply lookup_app_l_Some. exact Hn.
Qed.


Lemma lookup_map_id (l : list Track) (n : nat) (t : Track) :
  l !! n = Some t -> List.map id l !! n = Some (id t).
Proof.
  revert n. induction l as [|a l IH]; intros n Hn; [destruct n; discriminate|].
  destruct n as [|n]; simpl in *; [inversion Hn; reflexivity | apply IH; exact Hn].
Qed.

Lemma write_insight_length (x : string) (i : AIInsight) (l : list Track) :
  length (write_insight x i l) = length l.
Proof. unfold write_insight. apply length_map. Qed.

Lemma write_insight_unique (l : list Track) (n : nat) (u : Track) (i : AIInsight) :
  NoDup (List.map id l) -> l !! n = Some u ->
  write_insight (id u) i l = <[n := with_insight u i]> l.
Proof.
  intros Hnd Hn. apply list_eq. intros m.
  destruct (l !! m) as [t|] eqn:Hm.
  - rewrite (write_insight_lookup (id u) i l m t Hm).
    destruct (Nat.eq_dec n m) as [<- | Hne].
    + rewrite list_lookup_insert_eq by (apply lookup_lt_Some in Hn; exact Hn).
      rewrite Hn in Hm. inversion Hm; subst t. rewrite String.eqb_refl. reflexivity.
    + rewrite list_lookup_insert_ne by exact Hne. rewrite Hm.
      destruct (String.eqb_spec (id t) (id u)) as [Hid | _]; [|reflexivity].
      exfalso. apply Hne.
      apply (NoDup_lookup (List.map id l) n m (id u) Hnd).
      * apply lookup_map_id. exact Hn.
      * rewrite <- Hid. apply lookup_map_id. exact Hm.
  - rewrite (proj2 (lookup_ge_None _ _)).
    + symmetry. apply lookup_ge_None. rewrite length_insert.
      apply lookup_ge_None. exact Hm.
    + rewrite write_insight_length. apply lookup_ge_None. exact Hm.
Qed.



Lemma write_insight_count (x : string) (i : AIInsight) (l : list Track) :
  (unprocessed_count (write_insight x i l) <= unprocessed_count l)%nat
  /\ (forall t, In t l -> id t = x -> insight t = None ->
        (unprocessed_count (write_insight x i l) < unprocessed_count l)%nat).
Proof.
  unfold unprocessed_count, write_insight.
  induction l as [|a l [IHle IHlt]]; simpl; [split; [lia | intros t []]|].
  destruct (String.eqb_spec (id a) x) as [Hid | Hid]; simpl;
    destruct (unprocessed a) eqn:Ea; simpl; split; try lia;
    intros t [-> | Ht] Hx Hnone;
    try contradiction;
    try (unfold unprocessed in Ea; rewrite Hnone in Ea; discriminate);
    specialize (IHlt t Ht Hx Hnone); lia.
Qed.

(** X24. Every fulfilled request makes progress: the number of tracks
    without insight goes down, whatever the ids are; a request answered with
    [null] or rejected leaves the catalog as it was. *)
Theorem settlement_progress (evs : list Event) (u : Track) (i : AIInsight) :
  pending (run init evs) = [u] ->
  let s := run init evs in
  (unprocessed_count (tracks (step s (InsightSettled 0 (Fulfilled (Some i)))))
   < unprocessed_count (tracks s))%nat
  /\ tracks (step s (InsightSettled 0 (Fulfilled None))) = tracks s
  /\ tracks (step s (InsightSettled 0 Rejected)) = tracks s.
Proof.
  intros Hpd s. fold s in Hpd.
  pose proof (run_pending_first evs) as Hfirst. fold s in Hfirst.
  destruct (find_unprocessed_Some (tracks s) u) as [Hin Hnone].
  { apply Hfirst. rewrite Hpd. left. reflexivity. }
  unfold step, segment. rewrite Hpd. simpl.
  split; [|split; reflexivity].
  exact (proj2 (write_insight_count (id u) i (tracks s)) u Hin eq_refl Hnone).
Qed.

Lemma settlement_progress_X :
  (unprocessed_count
     (tracks (step (run init X_requested)
                (InsightSettled 0 (Fulfilled (Some happy_insight)))))
   < unprocessed_count (tracks (run init X_requested)))%nat.
Proof.
  assert (Hpd : pending (run init X_requested) = [track_X]) by reflexivity.
  exact (proj1 (settlement_progress X_requested track_X happy_insight Hpd)).
Defined.

Lemma filter_map_commute {A : Type} (f : A -> bool) (g : A -> A) (l : list A) :
  (forall a, f (g a) = f a) ->
  List.filter f (List.map g l) = List.map g (List.filter f l).
Proof.
  intros Hfg. induction l as [|a l IH]; simpl; [reflexivity|].
  rewrite Hfg. destruct (f a); simpl; rewrite IH; reflexivity.
Qed.

(** X25. Storing the duration the audio element reports touches nothing
    but durations: the ids and the insights of the catalog stay as they are,
    the view commutes with the update (the same tracks are shown at the same
    indices), and with no current track the catalog is unchanged. Every
    track carrying the id of the current track gets the duration. *)
Theorem onLoadedMetadata_only_durations (current : option Track) (d : float)
    (tracks : list Track) (smartPlaylists : list SmartPlaylist)
    (activeSmartPlaylistId : option string) :
  List.map id (onLoadedMetadata current d tracks) = List.map id tracks
  /\ List.map insight (onLoadedMetadata current d tracks) = List.map insight tracks
  /\ SmartView.displayedTracks (onLoadedMetadata current d tracks)
       smartPlaylists activeSmartPlaylistId
     = onLoadedMetadata current d
         (SmartView.displayedTracks tracks smartPlaylists activeSmartPlaylistId)
  /\ onLoadedMetadata None d tracks = tracks
  /\ (forall n t, tracks !! n = Some t ->
        onLoadedMetadata current d tracks !! n
        = Some (if is_current current t then with_duration t d else t)).
Proof.
  unfold onLoadedMetadata. split; [|split; [|split; [|split]]].
  - rewrite List.map_map. apply List.map_ext. intros t.
    destruct (is_current current t); reflexivity.
  - rewrite List.map_map. apply List.map_ext. intros t.
    destruct (is_current current t); reflexivity.
  - unfold SmartView.displayedTracks. destruct (SmartView.falsy _); [reflexivity|].
    destruct (SmartView.find_playlist _ _) as [pl|]; [|reflexivity].
    apply filter_map_commute. intros t. unfold SmartView.mood_matches.
    destruct (is_current current t); reflexivity.
  - simpl. rewrite <- (List.map_id tracks) at 2. apply List.map_ext. reflexivity.
  - intros n. revert tracks. induction n as [|n IH]; intros [|a l] t Hn;
      try discriminate; simpl in *.
    + inversion Hn. reflexivity.
    + apply IH. exact Hn.
Qed.

End CatalogFacts.

(** ** Sessions: the pipeline together with the metadata updates *)

Section SessionFacts.
Import Enrichment Controls Session.

Lemma play_snoc (s : App) (hs : list Happening) (h : Happening) :
  play s (hs ++ [h]) = advance (play s hs) h.
Proof. unfold play. rewrite foldl_app. reflexivity. Qed.

Lemma play_pipeline (s : App) (evs : list Event) :
  play s (List.map Pipeline evs) = run s evs.
Proof.
  revert s. induction evs as [|ev evs IH]; intros s; simpl; [reflexivity | apply IH].
Qed.

Lemma session_ids_snoc (hs : list Happening) (h : Happening) :
  session_ids (hs ++ [h]) = (session_ids hs ++ drawn h)%list.
Proof.
  unfold session_ids. rewrite List.map_app, concat_app. simpl.
  rewrite app_nil_r. reflexivity.
Qed.

Lemma with_duration_same (t : Track) : with_duration t (duration t) = t.
Proof. destruct t. reflexivity. Qed.

Lemma onLoadedMetadata_ids (current : option Track) (d : float) (l : list Track) :
  List.map id (onLoadedMetadata current d l) = List.map id l.
Proof.
  unfold onLoadedMetadata. rewrite List.map_map. apply List.map_ext.
  intros t. destruct (is_current current t); reflexivity.
Qed.

Lemma onLoadedMetadata_lookup (current : option Track) (d : float) (l : list Track)
    (n : nat) (t : Track) :
  l !! n = Some t ->
  onLoadedMetadata current d l !! n
  = Some (if is_current current t then with_duration t d else t).
Proof.
  revert n. induction l as [|a l IH]; intros n Hn; [destruct n; discriminate|].
  destruct n as [|n]; simpl in *; [inversion Hn; reflexivity | apply IH; exact Hn].
Qed.

Lemma onLoadedMetadata_In (current : option Track) (d : float) (l : list Track) (t : Track) :
  In t l ->
  exists t', In t' (onLoadedMetadata current d l) /\ id t' = id t /\ insight t' = insight t.
Proof.
  intros Hin. exists (if is_current current t then with_duration t d else t).
  split.
  - unfold onLoadedMetadata.
    exact (List.in_map (fun t => if is_current current t then with_duration t d else t) l t Hin).
  - destruct (is_current current t); split; reflexivity.
Qed.

Lemma onLoadedMetadata_find (current : option Track) (d : float) (l : list Track) (t : Track) :
  List.find unprocessed l = Some t ->
  exists t', List.find unprocessed (onLoadedMetadata current d l) = Some t' /\ id t' = id t.
Proof.
  induction l as [|a l IH]; simpl; [discriminate|].
  assert (Hsame : unprocessed (if is_current current a then with_duration a d else a)
                  = unprocessed a) by (destruct (is_current current a); reflexivity).
  rewrite Hsame. destruct (unprocessed a).
  - intros H. inversion H; subst a. eexists. split; [reflexivity|].
    destruct (is_current current t); reflexivity.
  - exact IH.
Qed.

Lemma advance_ids (s : App) (h : Happening) :
  List.map id (tracks (advance s h)) = (List.map id (tracks s) ++ drawn h)%list.
Proof.
  destruct h as [ev | current d]; simpl.
  - apply step_ids.
  - rewrite onLoadedMetadata_ids, app_nil_r. reflexivity.
Qed.

Lemma play_ids (hs : list Happening) :
  List.map id (tracks (play init hs)) = session_ids hs.
Proof.
  induction hs as [|h hs IH] using rev_ind; [reflexivity|].
  rewrite play_snoc, advance_ids, session_ids_snoc, IH. reflexivity.
Qed.

Lemma advance_single_flight (s : App) (h : Happening) :
  single_flight s -> single_flight (advance s h).
Proof.
  destruct h as [ev | current d]; simpl; [apply step_single_flight|].
  intros Hsf. exact Hsf.
Qed.

Lemma play_single_flight (hs : list Happening) : single_flight (play init hs).
Proof.
  induction hs as [|h hs IH] using rev_ind; [exact init_single_flight|].
  rewrite play_snoc. apply advance_single_flight. exact IH.
Qed.

Lemma advance_pending_by_id (s : App) (h : Happening) :
  single_flight s -> pending_by_id s -> pending_by_id (advance s h).
Proof.
  intros Hsf Hpend. destruct h as [[|k r|files] | current d]; simpl.
  - unfold step.
    destruct (segment_effect_cases s) as [Hseg | (u & Hdue & Hfind & Hld & Hseg)];
      rewrite Hseg; simpl.
    + exact Hpend.
    + intros v Hv. simpl in Hv.
      rewrite (single_flight_idle s Hsf Hld) in Hv. simpl in Hv.
      destruct Hv as [<- | []]. exists u. split; [exact Hfind | reflexivity].
  - unfold step.
    destruct (segment_settled_cases s k r)
      as [[Hseg Hwhy] | [(u & Hk & _ & Hseg) | (u & i & Hk & _ & Hseg)]];
      rewrite Hseg; simpl.
    + intros v Hv. simpl in Hv. apply Hpend.
      apply list_elem_of_In. apply list_elem_of_In in Hv.
      exact (list_elem_of_delete_inv v k (pending s) Hv).
    + destruct (single_flight_lookup s k u Hsf Hk) as [-> Hpd].
      intros v Hv. simpl in Hv. rewrite Hpd in Hv. destruct Hv.
    + destruct (single_flight_lookup s k u Hsf Hk) as [-> Hpd].
      intros v Hv. simpl in Hv. rewrite Hpd in Hv. destruct Hv.
  - unfold step. simpl. intros v Hv. simpl in Hv.
    destruct (Hpend v Hv) as (t & Hfind & Hid).
    exists t. split; [apply find_app_Some; exact Hfind | exact Hid].
  - intros v Hv. simpl in Hv. destruct (Hpend v Hv) as (t & Hfind & Hid).
    destruct (onLoadedMetadata_find current d (tracks s) t Hfind) as (t' & Hfind' & Hid').
    exists t'. split; [exact Hfind' | congruence].
Qed.

Lemma init_SessionInv : SessionInv init.
Proof.
  split.
  - exact init_single_flight.
  - intros u [].
  - intros x [].
  - constructor.
Qed.

(** What a step of the pipeline does to the catalog and to the record of
    the insight writes. *)
Lemma step_writes (s : App) (ev : Event) :
  single_flight s ->
  (tracks (step s ev) = tracks s \/ exists files, tracks (step s ev)
                                     = (tracks s ++ List.map track_of_file files)%list)
  /\ insight_writes (step s ev) = insight_writes s
  \/ exists u i, pending s = [u]
       /\ tracks (step s ev) = write_insight (id u) i (tracks s)
       /\ insight_writes (step s ev) = (insight_writes s ++ [id u])%list.
Proof.
  intros Hsf. destruct ev as [|k r|files]; unfold step.
  - left. destruct (segment_effect_cases s) as [Hseg | (u & _ & _ & _ & Hseg)];
      rewrite Hseg; simpl.
    + split; [left; reflexivity | reflexivity].
    + split; [left; reflexivity|].
      unfold insight_writes. simpl. rewrite <- app_assoc, omap_app. simpl.
      apply app_nil_r.
  - destruct (segment_settled_cases s k r)
      as [[Hseg _] | [(u & Hk & _ & Hseg) | (u & i & Hk & _ & Hseg)]];
      rewrite Hseg; simpl.
    + left. split; [left; reflexivity | reflexivity].
    + left. split; [left; reflexivity|].
      unfold insight_writes. simpl. rewrite omap_app. simpl. apply app_nil_r.
    + right. exists u, i. destruct (single_flight_lookup s k u Hsf Hk) as [_ Hpd].
      split; [exact Hpd|]. split; [reflexivity|].
      unfold insight_writes. simpl. rewrite <- app_assoc, omap_app. reflexivity.
  - left. simpl. split; [right; exists files; reflexivity|].
    unfold insight_writes. simpl. rewrite omap_app. simpl. apply app_nil_r.
Qed.

Lemma advance_SessionInv (s : App) (h : Happening) :
  SessionInv s -> NoDup (List.map id (tracks s)) -> SessionInv (advance s h).
Proof.
  intros [Hsf Hpend Hwr Hnd] Hids.
  split; [exact (advance_single_flight s h Hsf)
         | exact (advance_pending_by_id s h Hsf Hpend) | |].
  - (* written ids have an insight *)
    destruct h as [ev | current d]; simpl.
    + destruct (step_writes s ev Hsf)
        as [[Htr Hw] | (u & i & Hpd & Htr & Hw)]; intros x Hx; rewrite Hw in Hx.
      * destruct (Hwr x Hx) as (t & Ht & Hid & Hins). exists t.
        split; [|split; assumption].
        destruct Htr as [-> | [files ->]]; [exact Ht | apply List.in_or_app; left; exact Ht].
      * destruct (Hpend u) as (t0 & Hfind & Hid0); [rewrite Hpd; left; reflexivity|].
        destruct (find_unprocessed_Some _ _ Hfind) as [Ht0 _].
        rewrite Htr. apply List.in_app_or in Hx as [Hx | [<- | []]].
        -- destruct (Hwr x Hx) as (t & Ht & Hid & Hins).
           exists (if String.eqb (id t) (id u) then with_insight t i else t).
           split; [|split].
           ++ unfold write_insight.
              exact (List.in_map (fun t => if String.eqb (id t) (id u)
                                           then with_insight t i else t) _ t Ht).
           ++ destruct (String.eqb (id t) (id u)); exact Hid.
           ++ destruct (String.eqb (id t) (id u)); [discriminate | exact Hins].
        -- exists (with_insight t0 i). split; [|split; [exact Hid0 | discriminate]].
           unfold write_insight.
           pose proof (List.in_map (fun t => if String.eqb (id t) (id u)
                                             then with_insight t i else t) _ t0 Ht0) as H.
           simpl in H. rewrite Hid0, String.eqb_refl in H. exact H.
    + intros x Hx. destruct (Hwr x Hx) as (t & Ht & Hid & Hins).
      destruct (onLoadedMetadata_In current d (tracks s) t Ht) as (t' & Ht' & Hid' & Hins').
      exists t'. split; [exact Ht' | split; congruence].
  - (* no id is written twice *)
    destruct h as [ev | current d]; simpl; [|exact Hnd].
    destruct (step_writes s ev Hsf) as [[_ Hw] | (u & i & Hpd & _ & Hw)]; rewrite Hw;
      [exact Hnd|].
    destruct (Hpend u) as (t0 & Hfind & Hid0); [rewrite Hpd; left; reflexivity|].
    destruct (find_unprocessed_Some _ _ Hfind) as [Ht0 Hnone].
    apply NoDup_app. split; [exact Hnd|]. split; [|apply NoDup_singleton].
    intros x Hx Hxu. apply list_elem_of_singleton in Hxu. subst x.
    apply list_elem_of_In in Hx.
    destruct (Hwr (id u) Hx) as (t & Ht & Hid & Hins).
    rewrite (unique_id_track (tracks s) t t0 Hids Ht Ht0) in Hins by congruence.
    contradiction.
Qed.

Lemma play_SessionInv (hs : list Happening) :
  NoDup (session_ids hs) -> SessionInv (play init hs).
Proof.
  induction hs as [|h hs IH] using rev_ind; intros Hnd; [exact init_SessionInv|].
  rewrite session_ids_snoc in Hnd. apply NoDup_app in Hnd as (Hnd & _ & _).
  rewrite play_snoc. apply advance_SessionInv; [exact (IH Hnd)|].
  rewrite play_ids. exact Hnd.
Qed.

(** A happening leaves an entry that has an insight as it is, but for its
    duration. *)
Lemma advance_keeps_entry (s : App) (h : Happening) (n : nat) (t : Track) (i : AIInsight) :
  SessionInv s -> NoDup (List.map id (tracks s)) ->
  insight t = Some i -> entry_is s n t -> entry_is (advance s h) n t.
Proof.
  intros [Hsf Hpend _ _] Hids Hi [d0 Hn].
  destruct h as [ev | current d]; simpl.
  - destruct (step_writes s ev Hsf) as [[Htr _] | (u & j & Hpd & Htr & _)].
    + exists d0. destruct Htr as [-> | [files ->]];
        [exact Hn | apply lookup_app_l_Some; exact Hn].
    + exists d0. rewrite Htr.
      rewrite (write_insight_lookup (id u) j (tracks s) n _ Hn).
      destruct (String.eqb_spec (id (with_duration t d0)) (id u)) as [Hid|_];
        [exfalso | reflexivity].
      destruct (Hpend u) as (t0 & Hfind & Hid0); [rewrite Hpd; left; reflexivity|].
      destruct (find_unprocessed_Some _ _ Hfind) as [Ht0 Hnone].
      assert (Ht : In (with_duration t d0) (tracks s)).
      { apply list_elem_of_In. apply list_elem_of_lookup. exists n. exact Hn. }
      assert (Heq : with_duration t d0 = t0)
        by (apply (unique_id_track (tracks s)); [exact Hids | exact Ht | exact Ht0 | congruence]).
      rewrite <- Heq in Hnone. simpl in Hnone. congruence.
  - unfold entry_is. simpl.
    rewrite (onLoadedMetadata_lookup current d (tracks s) n _ Hn).
    destruct (is_current current (with_duration t d0)); [exists d | exists d0]; reflexivity.
Qed.

(** C9, as the code has it. When the ids drawn for the uploaded files are
    distinct, then through every session of uploads, effect runs,
    settlements and metadata updates the pipeline writes an insight for each
    track id at most once, and a catalog entry that has an insight keeps it:
    the entry stays the same track, insight included, and only its duration
    may still be updated. *)
Theorem insight_written_once_distinct_ids (hs1 hs2 : list Happening) :
  NoDup (session_ids (hs1 ++ hs2)) ->
  NoDup (insight_writes (play init (hs1 ++ hs2)))
  /\ (forall n t i,
        tracks (play init hs1) !! n = Some t -> insight t = Some i ->
        exists d, tracks (play init (hs1 ++ hs2)) !! n = Some (with_duration t d)
                  /\ id (with_duration t d) = id t
                  /\ insight (with_duration t d) = Some i).
Proof.
  intros Hnd. split.
  - exact (sinv_writes_once _ (play_SessionInv _ Hnd)).
  - intros n t i Hn Hi.
    assert (Hentry : entry_is (play init (hs1 ++ hs2)) n t).
    { revert Hnd. induction hs2 as [|h hs2 IH] using rev_ind; intros Hnd.
      - rewrite app_nil_r. exists (duration t). rewrite with_duration_same. exact Hn.
      - rewrite app_assoc in Hnd |- *.
        assert (Hpre : NoDup (session_ids (hs1 ++ hs2))).
        { rewrite session_ids_snoc in Hnd. apply NoDup_app in Hnd as (Hnd & _ & _).
          exact Hnd. }
        rewrite play_snoc.
        apply (advance_keeps_entry _ h n t i).
        + exact (play_SessionInv _ Hpre).
        + rewrite play_ids. exact Hpre.
        + exact Hi.
        + exact (IH Hpre). }
    destruct Hentry as [d Hd]. exists d. split; [exact Hd | split; [reflexivity | exact Hi]].
Qed.

Lemma insight_written_once_distinct_ids_X_then_Y :
  NoDup (session_ids (X_enriched_and_measured ++ Y_enriched_later))
  /\ NoDup (insight_writes (play init (X_enriched_and_measured ++ Y_enriched_later)))
  /\ exists d, tracks (play init (X_enriched_and_measured ++ Y_enriched_later)) !! 0%nat
               = Some (with_duration
                         (with_duration (with_insight track_X happy_insight) 215.5%float) d).
Proof.
  assert (Hnd : NoDup (session_ids (X_enriched_and_measured ++ Y_enriched_later))).
  { vm_compute.
    repeat (apply NoDup_cons; split;
            [intros Hin; apply list_elem_of_In in Hin; simpl in Hin;
             repeat (destruct Hin as [Hin | Hin]; [discriminate Hin|]); exact Hin|]).
    apply NoDup_nil. exact I. }
  destruct (insight_written_once_distinct_ids X_enriched_and_measured Y_enriched_later Hnd)
    as [Hw Hkeep].
  split; [exact Hnd|]. split; [exact Hw|].
  destruct (Hkeep 0%nat (with_duration (with_insight track_X happy_insight) 215.5%float)
              happy_insight eq_refl eq_refl) as (d & Hd & _).
  exists d. exact Hd.
Defined.

(** C9 fails as stated: were [Math.random] to give the id of [X] to a later
    file, the write for that file would replace the insight [X] already has,
    and the same id would be written twice. *)
Lemma insight_overwritten_when_ids_collide :
  tracks (run init only_X_enriched) !! 0%nat = Some (with_insight track_X happy_insight)
  /\ tracks (run init colliding_upload) !! 0%nat = Some (with_insight track_X dark_insight)
  /\ insight_writes (run init colliding_upload) = [id track_X; id track_X].
Proof. repeat split. Qed.

Lemma advance_stuck (s : App) (h : Happening) :
  isInsightLoading s = true -> pending s = [] ->
  isInsightLoading (advance s h) = true /\ pending (advance s h) = []
  /\ requests (advance s h) = requests s
  /\ insight_writes (advance s h) = insight_writes s
  /\ forall n t, entry_is s n t -> entry_is (advance s h) n t.
Proof.
  intros Hld Hpd. destruct h as [ev | current d]; simpl.
  - destruct (step_stuck s ev Hld Hpd) as (H1 & H2 & H3 & H4 & H5).
    repeat split; try assumption.
    intros n t [d0 Hn]. exists d0. apply H5. exact Hn.
  - repeat split; try assumption.
    intros n t [d0 Hn]. unfold entry_is. simpl.
    rewrite (onLoadedMetadata_lookup current d (tracks s) n _ Hn).
    destruct (is_current current (with_duration t d0)); [exists d | exists d0]; reflexivity.
Qed.

(** X22. A rejected call ends the enrichment for good: the flag stays set,
    and through everything that happens afterwards (effect runs, uploads,
    metadata updates) no request is issued, no insight is written, and every
    entry the catalog had stays the same track with the same insight; only
    its duration may still be updated. *)
Theorem rejection_stops_pipeline (hs hs' : list Happening) (u : Track) :
  pending (play init hs) = [u] ->
  let s := advance (play init hs) (Pipeline (InsightSettled 0 Rejected)) in
  isInsightLoading (play s hs') = true
  /\ requests (play s hs') = requests (play init hs)
  /\ insight_writes (play s hs') = insight_writes (play init hs)
  /\ forall n t, tracks (play init hs) !! n = Some t ->
       exists d, tracks (play s hs') !! n = Some (with_duration t d)
                 /\ id (with_duration t d) = id t
                 /\ insight (with_duration t d) = insight t.
Proof.
  intros Hpd s.
  assert (Hs : isInsightLoading s = true /\ pending s = []
               /\ requests s = requests (play init hs)
               /\ insight_writes s = insight_writes (play init hs)
               /\ tracks s = tracks (play init hs)).
  { unfold s. simpl. unfold step, segment. rewrite Hpd. simpl. rewrite Hpd. simpl.
    repeat split. apply (proj2 (play_single_flight hs)). rewrite Hpd. discriminate. }
  destruct Hs as (Hld & Hp & Hr & Hw & Ht).
  assert (Hall : isInsightLoading (play s hs') = true
                 /\ requests (play s hs') = requests s
                 /\ insight_writes (play s hs') = insight_writes s
                 /\ forall n t, entry_is s n t -> entry_is (play s hs') n t).
  { clear Hr Hw Ht. clearbody s. clear Hpd.
    revert s Hld Hp. induction hs' as [|h hs' IH]; intros s Hld Hp; simpl.
    - repeat split; try assumption. intros n t Hn; exact Hn.
    - destruct (advance_stuck s h Hld Hp) as (Hld' & Hp' & Hr' & Hw' & Ht').
      destruct (IH (advance s h) Hld' Hp') as (H1 & H2 & H3 & H4).
      repeat split; try congruence. intros n t Hn. apply H4, Ht'. exact Hn. }
  destruct Hall as (H1 & H2 & H3 & H4).
  split; [exact H1|]. split; [congruence|]. split; [congruence|].
  intros n t Hn.
  destruct (H4 n t) as [d Hd].
  { exists (duration t). rewrite with_duration_same, Ht. exact Hn. }
  exists d. split; [exact Hd | split; reflexivity].
Qed.

Lemma rejection_stops_pipeline_X :
  requests (play (advance (play init X_requested_and_measured)
                    (Pipeline (InsightSettled 0 Rejected)))
              [Pipeline EffectRun; MetadataLoaded (Some track_X) 215.5%float;
               Pipeline (FilesUploaded [file_Y]); Pipeline EffectRun])
  = requests (play init X_requested_and_measured).
Proof.
  assert (Hpd : pending (play init X_requested_and_measured) = [track_X]) by reflexivity.
  exact (proj1 (proj2 (rejection_stops_pipeline X_requested_and_measured
                         [Pipeline EffectRun; MetadataLoaded (Some track_X) 215.5%float;
                          Pipeline (FilesUploaded [file_Y]); Pipeline EffectRun]
                         track_X Hpd))).
Defined.

(** X26. With distinct track ids, when the pipeline's write
    [prev.map(t => t.id === unprocessed.id ? { ...t, insight } : t)] reaches
    an entry that had no insight, a view filtered by a playlist with a mood
    keeps all its tracks in their order and gains at most the enriched track;
    it stays exactly as it was unless the new mood is, up to letter case, the
    playlist's mood. *)
Theorem insight_only_adds_to_view (tracks : list Track) (n : nat) (u : Track)
    (i : AIInsight) (smartPlaylists : list SmartPlaylist)
    (activeSmartPlaylistId : option string) (playlist : SmartPlaylist) (m : string) :
  NoDup (List.map id tracks) ->
  tracks !! n = Some u ->
  insight u = None ->
  SmartView.falsy activeSmartPlaylistId = false ->
  SmartView.find_playlist smartPlaylists activeSmartPlaylistId = Some playlist ->
  criteria_mood (criteria playlist) = Some m ->
  let old := SmartView.displayedTracks tracks smartPlaylists activeSmartPlaylistId in
  let new := SmartView.displayedTracks (write_insight (id u) i tracks)
               smartPlaylists activeSmartPlaylistId in
  sublist old new
  /\ (length new <= S (length old))%nat
  /\ (SmartView.toLowerCase (mood i) <> SmartView.toLowerCase m -> new = old).
Proof.
  intros Hids Hn Hnone Hf Hfind Hm old new.
  assert (Hsplit : tracks = (take n tracks ++ u :: drop (S n) tracks)%list).
  { symmetry. apply take_drop_middle. exact Hn. }
  assert (Hu : SmartView.mood_matches playlist u = false).
  { rewrite (mood_matches_has_mood playlist m u Hm).
    unfold SmartView.has_mood. rewrite Hnone. reflexivity. }
  assert (Hold : old = (List.filter (SmartView.mood_matches playlist) (take n tracks)
                        ++ List.filter (SmartView.mood_matches playlist)
                             (drop (S n) tracks))%list).
  { unfold old, SmartView.displayedTracks. rewrite Hf, Hfind.
    rewrite Hsplit at 1. rewrite List.filter_app. simpl. rewrite Hu. reflexivity. }
  assert (Hnew : new = (List.filter (SmartView.mood_matches playlist) (take n tracks)
                        ++ List.filter (SmartView.mood_matches playlist)
                             (with_insight u i :: drop (S n) tracks))%list).
  { unfold new, SmartView.displayedTracks. rewrite Hf, Hfind.
    rewrite (write_insight_unique tracks n u i Hids Hn).
    rewrite insert_take_drop by (apply lookup_lt_Some in Hn; exact Hn).
    apply List.filter_app. }
  rewrite Hold, Hnew. simpl.
  rewrite (mood_matches_has_mood playlist m (with_insight u i) Hm).
  unfold SmartView.has_mood. simpl.
  destruct (String.eqb_spec (SmartView.toLowerCase (mood i)) (SmartView.toLowerCase m))
    as [Heq | Hne].
  - split; [|split].
    + apply sublist_app; [reflexivity | apply sublist_cons; reflexivity].
    + rewrite !length_app. simpl. lia.
    + intros Hdiff. contradiction.
  - split; [reflexivity|]. split; [lia | intros _; reflexivity].
Qed.

Lemma insight_only_adds_to_view_B :
  sublist
    (SmartView.displayedTracks [SmartView.track_A; SmartView.track_B; SmartView.track_C]
       [SmartView.chill_playlist] (Some "k3x9q0w2z"))
    (SmartView.displayedTracks
       (write_insight (id SmartView.track_B) SmartView.chill_insight
          [SmartView.track_A; SmartView.track_B; SmartView.track_C])
       [SmartView.chill_playlist] (Some "k3x9q0w2z")).
Proof.
  assert (Hids : NoDup (List.map id [SmartView.track_A; SmartView.track_B; SmartView.track_C])).
  { vm_compute.
    repeat (apply NoDup_cons; split;
            [intros Hin; apply list_elem_of_In in Hin; simpl in Hin;
             repeat (destruct Hin as [Hin | Hin]; [discriminate Hin|]); exact Hin|]).
    apply NoDup_nil. exact I. }
  exact (proj1 (insight_only_adds_to_view
                  [SmartView.track_A; SmartView.track_B; SmartView.track_C] 1
                  SmartView.track_B SmartView.chill_insight [SmartView.chill_playlist]
                  (Some "k3x9q0w2z") SmartView.chill_playlist "Chill"
                  Hids eq_refl eq_refl eq_refl eq_refl eq_refl)).
Defined.

End SessionFacts.
